(** * Gap reconstruction and scale mapping of the "Circle/Vertical of Doom"

    A shallow embedding of the pure core of
    [src/components/dashboard/VerticalOfDoom.tsx] and of its sibling
    [CircleOfDoom.tsx] (the two files duplicate the parsing and
    reconstruction helpers verbatim; they are embedded once), together
    with the defaults of [src/stores/useSettingsStore.ts].

    Numbers.  A JavaScript [number] is modelled by an exact rational
    ([Q], compared with [==]); rounding of IEEE doubles, [NaN] and the
    infinities are outside the model, so [Number.isFinite] is constantly
    true on the values that occur.  Integers that are only used as
    counts or indices ([circleTopN], [sessionPart]) are [Z].

    Strings.  A string is a [string] of code units below 256; the regular
    expressions of the source only look at ASCII characters. *)

From Stdlib Require Import QArith Qminmax Lqa Lia ZArith List Ascii String Bool.
From Stdlib Require Import Qround Qabs Sorting.Sorted Sorting.Permutation.
From stdpp Require Import gmap strings list fin_maps.

Local Open Scope Q_scope.

(* ===================================================================== *)
(** ** Characters and the few string primitives the source uses *)
(* ===================================================================== *)

Definition isDigit (c : ascii) : bool :=
  ((48 <=? nat_of_ascii c) && (nat_of_ascii c <=? 57))%nat.

(** Code units stripped by [String.prototype.trim] below 256: TAB, LF, VT,
    FF, CR, SPACE and NBSP. *)
Definition isWhiteSpace (c : ascii) : bool :=
  let n := nat_of_ascii c in
  ((n =? 9) || (n =? 10) || (n =? 11) || (n =? 12) || (n =? 13)
   || (n =? 32) || (n =? 160))%nat.

Fixpoint trimStart (s : list ascii) : list ascii :=
  match s with
  | c :: r => if isWhiteSpace c then trimStart r else s
  | [] => []
  end.

Definition trim (s : list ascii) : list ascii :=
  rev (trimStart (rev (trimStart s))).

(** [c] is the letter L in either case (the [i] flag of [/[0-9]+L/i]). *)
Definition isL (c : ascii) : bool :=
  (Ascii.eqb c "L" || Ascii.eqb c "l")%char.

(** [/[0-9]+L/i] matched with its first character at the head of [s]. *)
Fixpoint lapsAt (s : list ascii) : bool :=
  match s with
  | d :: rest =>
      isDigit d &&
      ((match rest with c :: _ => isL c | [] => false end) || lapsAt rest)
  | [] => false
  end.

(** [/[0-9]+L/i.test(s)]: the pattern is not anchored, every start position
    is tried. *)
Fixpoint lapsTest (s : list ascii) : bool :=
  match s with
  | [] => false
  | _ :: rest => lapsAt s || lapsTest rest
  end.

(** The longest prefix of digits and what follows it: the greedy [\d+]. *)
Fixpoint spanDigits (s : list ascii) : list ascii * list ascii :=
  match s with
  | c :: r =>
      if isDigit c then let (d, t) := spanDigits r in (c :: d, t)
      else ([], s)
  | [] => ([], [])
  end.

(** [(?:\.(\d{1,3}))?$] matched at the head of [s]: [Some None] when the
    group does not take part, [Some (Some f)] with the captured digits. *)
Definition matchFraction (s : list ascii) : option (option (list ascii)) :=
  match s with
  | [] => Some None
  | c :: r =>
      if Ascii.eqb c "."%char then
        match spanDigits r with
        | (f, []) =>
            if ((1 <=? length f) && (length f <=? 3))%nat
            then Some (Some f) else None
        | (_, _ :: _) => None
        end
      else None
  end.

(** [v.match(/^(\d+):(\d{1,2})(?:\.(\d{1,3}))?$/)]: the three groups. *)
Definition matchHms (v : list ascii)
  : option (list ascii * list ascii * option (list ascii)) :=
  match spanDigits v with
  | (m, c :: r2) =>
      if (Ascii.eqb c ":"%char && (1 <=? length m)%nat) then
        let (s, r3) := spanDigits r2 in
        if ((1 <=? length s) && (length s <=? 2))%nat then
          match matchFraction r3 with
          | Some f => Some (m, s, f)
          | None => None
          end
        else None
      else None
  | (_, []) => None
  end.

(** [v.match(/^(\d+)(?:\.(\d{1,3}))?$/)]: the two groups. *)
Definition matchSs (v : list ascii)
  : option (list ascii * option (list ascii)) :=
  let (s, r) := spanDigits v in
  if (1 <=? length s)%nat then
    match matchFraction r with
    | Some f => Some (s, f)
    | None => None
    end
  else None.

(** [parseInt(digits, 10)] on a string of decimal digits. *)
Definition digitValue (c : ascii) : Z := Z.of_nat (nat_of_ascii c) - 48.

Definition parseInt (ds : list ascii) : Z :=
  fold_left (fun acc c => 10 * acc + digitValue c)%Z ds 0%Z.

(** [f.padEnd(3, "0")]. *)
Definition padEnd3 (f : list ascii) : list ascii :=
  f ++ repeat "0"%char (3 - length f).

(** [g ? parseInt(g.padEnd(3, "0"), 10) : 0] for an optional group [g].  A
    group that took part holds at least one digit, so it is truthy. *)
Definition millis (g : option (list ascii)) : Z :=
  match g with
  | Some f => parseInt (padEnd3 f)
  | None => 0%Z
  end.

(* ===================================================================== *)
(** ** [parseSeconds] *)
(* ===================================================================== *)

Definition parseSeconds (input : option string) : option Q :=
  match input with
  | None => None
  | Some str =>
      match list_ascii_of_string str with
      | [] => None                                   (* !input *)
      | raw =>
          let s := trim raw in
          if lapsTest s then None
          else
            match s with
            | c :: v =>
                if (Ascii.eqb c "+" || Ascii.eqb c "-")%char then
                  let sign : Q := if Ascii.eqb c "-"%char then -1 else 1 in
                  match matchHms v with
                  | Some (m, sec, f) =>
                      Some (sign * (inject_Z (parseInt m) * 60
                                    + inject_Z (parseInt sec)
                                    + inject_Z (millis f) / 1000))
                  | None =>
                      match matchSs v with
                      | Some (sec, f) =>
                          Some (sign * (inject_Z (parseInt sec)
                                        + inject_Z (millis f) / 1000))
                      | None => None
                      end
                  end
                else None
            | [] => None
            end
      end
  end.

(* ===================================================================== *)
(** ** The timing snapshot ([TimingDataDriver] of [@/types/state.type]) *)
(* ===================================================================== *)

(** Only the fields the gap and scale code reads.  An optional field is an
    [option]; a field holding [undefined] and an absent field are both
    [None]. *)

Record Stat := {
  stat_timeDiffToFastest : option string;
  stat_timeDifftoPositionAhead : option string;
}.

Record Interval := {
  interval_value : option string;
}.

Record LapTime := {
  lap_value : option string;
}.

Record TimingDataDriver := {
  racingNumber : string;
  gapToLeader : option string;
  intervalToPositionAhead : option Interval;
  stats : option (list Stat);
  timeDiffToFastest : option string;
  timeDiffToPositionAhead : option string;
  lastLapTime : option LapTime;
  bestLapTime : option LapTime;
}.

(** [a ?? b] on the results of [parseSeconds]. *)
Definition orElse {A} (a b : option A) : option A :=
  match a with
  | Some _ => a
  | None => b
  end.

Infix "??" := orElse (at level 61, left associativity).

(** [sessionPart] as a condition: [undefined] and [0] are falsy. *)
Definition truthyPart (sessionPart : option Z) : option Z :=
  match sessionPart with
  | Some p => if (p =? 0)%Z then None else Some p
  | None => None
  end.

(** [d.stats && sessionPart ? d.stats[Math.max(0, sessionPart - 1)] : undefined];
    an index past the end of the array reads [undefined]. *)
Definition statOfPart (d : TimingDataDriver) (sessionPart : option Z)
  : option Stat :=
  match stats d, truthyPart sessionPart with
  | Some st, Some p => st !! Z.to_nat (Z.max 0 (p - 1))
  | _, _ => None
  end.

Definition getGapToLeaderSeconds (d : TimingDataDriver)
    (sessionPart : option Z) : option Q :=
  parseSeconds (gapToLeader d)
  ?? parseSeconds (statOfPart d sessionPart ≫= stat_timeDiffToFastest)
  ?? parseSeconds (timeDiffToFastest d).

Definition getIntervalAheadSeconds (d : TimingDataDriver)
    (sessionPart : option Z) : option Q :=
  parseSeconds (intervalToPositionAhead d ≫= interval_value)
  ?? parseSeconds (statOfPart d sessionPart ≫= stat_timeDifftoPositionAhead)
  ?? parseSeconds (timeDiffToPositionAhead d).

(* ===================================================================== *)
(** ** [computeGapsSeconds] *)
(* ===================================================================== *)

(** The body of the [for] loop at index [i], with [prev = ordered[i-1]] and
    [d = ordered[i]], acting on the map built so far. *)
Definition gapStep (sessionPart : option Z) (prev d : TimingDataDriver)
    (gaps : gmap string Q) : gmap string Q :=
  match getGapToLeaderSeconds d sessionPart with
  | Some direct => <[racingNumber d := Qmax 0 direct]> gaps
  | None =>
      let prevGap := default 0 (gaps !! racingNumber prev) in
      let step := getIntervalAheadSeconds d sessionPart in
      <[racingNumber d := Qmax 0 (prevGap + default 0 step)]> gaps
  end.

(** The loop from index [i] on: [prev] is [ordered[i-1]], [rest] is
    [ordered.slice(i)]. *)
Fixpoint gapLoop (sessionPart : option Z) (prev : TimingDataDriver)
    (rest : list TimingDataDriver) (gaps : gmap string Q) : gmap string Q :=
  match rest with
  | [] => gaps
  | d :: rest' => gapLoop sessionPart d rest' (gapStep sessionPart prev d gaps)
  end.

Definition computeGapsSeconds (ordered : list TimingDataDriver)
    (sessionPart : option Z) : gmap string Q :=
  match ordered with
  | [] => ∅
  | first :: rest => gapLoop sessionPart first rest (<[racingNumber first := 0]> ∅)
  end.

(* ===================================================================== *)
(** ** The settings store ([useSettingsStore.ts], Circle of Doom part) *)
(* ===================================================================== *)

Inductive ScaleType := piecewise | spread | fixed.

Record Settings := {
  circleScale : ScaleType;
  circleG1 : Q;
  circleG2 : Q;
  circleFixedSeconds : Q;
  circleTopN : Z;
}.

(** The initial state of the store. *)
Definition defaultSettings : Settings := {|
  circleScale := piecewise;
  circleG1 := 3;
  circleG2 := 15;
  circleFixedSeconds := 30;
  circleTopN := 0;
|}.

(* ===================================================================== *)
(** ** JavaScript operators used by both components *)
(* ===================================================================== *)

(** [x || d] on numbers: [0] is falsy. *)
Definition orDefault (x d : Q) : Q := if Qeq_bool x 0 then d else x.

(** [Number.isFinite] on the modelled (finite) numbers. *)
Definition Number_isFinite (x : Q) : bool := true.

(** [Math.max(a1, ..., an)] for [n >= 1]; both call sites pass at least one
    argument ([Math.max()] itself is [-Infinity], outside the model). *)
Definition Math_max (args : list Q) : Q :=
  match args with
  | [] => 0
  | x :: xs => fold_left Qmax xs x
  end.

(** [a > b] and [a <= b] as conditions. *)
Definition Qgtb (a b : Q) : bool := negb (Qle_bool a b).

(** [topN && topN > 0 ? Math.min(topN, ordered.length) : ordered.length],
    then [ordered.slice(0, n)]; the same code in both components. *)
Definition sliceTopN (topN : Z) (ordered : list TimingDataDriver)
  : list TimingDataDriver :=
  let len := Z.of_nat (length ordered) in
  let n := if (negb (topN =? 0) && (0 <? topN))%Z then Z.min topN len else len in
  take (Z.to_nat n) ordered.

(** [Math.max(0.5, Math.min(g1Setting || 3, g2Setting || 15))] and
    [Math.max(G1 + 0.5, g2Setting || 15)]; the same code in both components. *)
Definition effG1 (s : Settings) : Q :=
  Qmax 0.5 (Qmin (orDefault (circleG1 s) 3) (orDefault (circleG2 s) 15)).

Definition effG2 (s : Settings) : Q :=
  Qmax (effG1 s + 0.5) (orDefault (circleG2 s) 15).

(** A division that reports a zero divisor (where JavaScript would produce
    an infinity or [NaN]) instead of a number. *)
Definition divide (a b : Q) : option Q :=
  if Qeq_bool b 0 then None else Some (a / b).

(* ===================================================================== *)
(** ** The Vertical of Doom component *)
(* ===================================================================== *)

Module Vertical.

(** The fields of [Dot] that come from the gap and scale code; [tla],
    [color], [hidden], [isFavorite] and [drsOn] are presentation data read
    from other stores. *)
Record Dot := {
  y : Q;
  dotRacingNumber : string;
  gap : Q;
  overMax : bool;
}.

Section Component.
Variable settings : Settings.
Variable ordered : list TimingDataDriver.
Variable sessionPart : option Z.

Definition scaleType := circleScale settings.
Definition fixedSec := circleFixedSeconds settings.

Definition gaps : gmap string Q := computeGapsSeconds ordered sessionPart.

(** [gaps.get(d.racingNumber) ?? 0]. *)
Definition gapOf (d : TimingDataDriver) : Q :=
    default 0 (gaps !! racingNumber d).

Definition visible : list TimingDataDriver :=
    sliceTopN (circleTopN settings) ordered.

Definition G1 : Q := effG1 settings.
Definition G2 : Q := effG2 settings.

Definition spreadSeconds : Q :=
    let values := List.filter Number_isFinite (map gapOf visible) in
    match values with
    | [] => 0
    | _ :: _ => Math_max values
    end.

(** [scaleType === "fixed" ? Math.max(1, fixedSec || 30)
                             : Math.max(1, spreadSeconds || 1)]. *)
Definition linearBase : Q :=
    match scaleType with
    | fixed => Qmax 1 (orDefault fixedSec 30)
    | _ => Qmax 1 (orDefault spreadSeconds 1)
    end.

Definition mapGapToUnit (gap : Q) : Q :=
    if negb (Number_isFinite gap) || Qle_bool gap 0 then 0
    else
      match scaleType with
      | piecewise =>
          if Qle_bool gap G1 then (gap / G1) * 0.7
          else if Qle_bool gap G2 then 0.7 + ((gap - G1) / (G2 - G1)) * 0.3
          else 1
      | _ => Qmin 1 (gap / linearBase)
      end.

(** [mapGapToUnit] with every division checked by [divide]. *)
Definition mapGapToUnitChecked (gap : Q) : option Q :=
    if negb (Number_isFinite gap) || Qle_bool gap 0 then Some 0
    else
      match scaleType with
      | piecewise =>
          if Qle_bool gap G1 then
            (fun q => q * 0.7) <$> divide gap G1
          else if Qle_bool gap G2 then
            (fun q => 0.7 + q * 0.3) <$> divide (gap - G1) (G2 - G1)
          else Some 1
      | _ => Qmin 1 <$> divide gap linearBase
      end.

Definition piecewiseStretch : Q :=
    match scaleType with
    | piecewise =>
        let maxGap := Math_max (map gapOf visible ++ [0]) in
        let base := mapGapToUnit maxGap in
        if Qle_bool base 0 || Qle_bool 1 base then 1 else 1 / base
    | _ => 1
    end.

(** [scaleType === "piecewise" ? piecewiseStretch : 1]. *)
Definition stretchFactor : Q :=
    match scaleType with
    | piecewise => piecewiseStretch
    | _ => 1
    end.

(** [Math.min(1, mapGapToUnit(gap) * stretchFactor)]: the coordinate of a
      dot ([y]) and of a tick ([pushTick]). *)
Definition unitOf (gap : Q) : Q :=
    let u := mapGapToUnit gap * stretchFactor in
    Qmin 1 u.

Definition baseSec : Q :=
    match scaleType with
    | piecewise => G2
    | _ => linearBase
    end.

Definition dots : list Dot :=
    map (fun d =>
           let gap := gapOf d in
           {| y := unitOf gap;
              dotRacingNumber := racingNumber d;
              gap := gap;
              overMax := Qgtb gap baseSec |})
        visible.
End Component.

End Vertical.

(* ===================================================================== *)
(** ** The Circle of Doom component *)
(* ===================================================================== *)

Module Circle.

Record Dot := {
  angle : Q;
  dotRacingNumber : string;
  gap : Q;
  overMax : bool;
}.

(** [const v = parseSeconds(t?.value); if (v && v > 10) return v]. *)
Definition lapCandidate (t : option LapTime) : option Q :=
  match parseSeconds (t ≫= lap_value) with
  | Some v => if negb (Qeq_bool v 0) && Qgtb v 10 then Some v else None
  | None => None
  end.

Definition getLapSecondsForLeader (leader : option TimingDataDriver) : Q :=
  match lapCandidate (leader ≫= lastLapTime) with
  | Some last => last
  | None =>
      match lapCandidate (leader ≫= bestLapTime) with
      | Some best => best
      | None => 90
      end
  end.

Section Component.
Variable settings : Settings.
Variable ordered : list TimingDataDriver.
Variable sessionPart : option Z.

Definition scaleType := circleScale settings.
Definition fixedSec := circleFixedSeconds settings.

Definition leader : option TimingDataDriver := ordered !! 0%nat.
Definition lapSeconds : Q := getLapSecondsForLeader leader.

Definition gaps : gmap string Q := computeGapsSeconds ordered sessionPart.

Definition gapOf (d : TimingDataDriver) : Q :=
    default 0 (gaps !! racingNumber d).

Definition visible : list TimingDataDriver :=
    sliceTopN (circleTopN settings) ordered.

Definition G1 : Q := effG1 settings.
Definition G2 : Q := effG2 settings.

Definition spreadSeconds : Q :=
    let values := List.filter Number_isFinite (map gapOf visible) in
    let max := match values with [] => 0 | _ :: _ => Math_max values end in
    if Qgtb max 0 then max else orDefault lapSeconds 90.

(** The inner arrow function of [piecewiseStretch]; [tG1] and [tG2] are
      recomputed there by the expressions of [G1] and [G2]. *)
Definition baseAngle (maxGap : Q) : Q :=
    let tG1 := effG1 settings in
    let tG2 := effG2 settings in
    if negb (Number_isFinite maxGap) || Qle_bool maxGap 0 then 0
    else if Qle_bool maxGap tG1 then (maxGap / tG1) * 240
    else if Qle_bool maxGap tG2 then 240 + ((maxGap - tG1) / (tG2 - tG1)) * 120
    else 360.

Definition piecewiseStretch : Q :=
    match scaleType with
    | piecewise =>
        let maxGap := Math_max (map gapOf visible ++ [0]) in
        let b := baseAngle maxGap in
        if Qle_bool b 0 || Qle_bool 360 b then 1 else 360 / b
    | _ => 1
    end.

(** [scaleType === "fixed" ? Math.max(1, fixedSec || 30) : spreadSeconds]. *)
Definition linearBase : Q :=
    match scaleType with
    | fixed => Qmax 1 (orDefault fixedSec 30)
    | _ => spreadSeconds
    end.

Definition mapGapToAngle (gap : Q) : Q :=
    if negb (Number_isFinite gap) || Qle_bool gap 0 then 0
    else
      match scaleType with
      | piecewise =>
          if Qle_bool gap G1 then (gap / G1) * 240
          else if Qle_bool gap G2 then 240 + ((gap - G1) / (G2 - G1)) * 120
          else 360
      | _ => Qmin 360 ((gap / linearBase) * 360)
      end.

Definition base : Q :=
    match scaleType with
    | piecewise => G2
    | _ => linearBase
    end.

Definition dots : list Dot :=
    map (fun d =>
           let gap := gapOf d in
           let raw := mapGapToAngle gap in
           {| angle := Qmin 359.9
                         (match scaleType with
                          | piecewise => raw * piecewiseStretch
                          | _ => raw
                          end);
              dotRacingNumber := racingNumber d;
              gap := gap;
              overMax := Qgtb gap base |})
        visible.
End Component.

End Circle.

(* ===================================================================== *)
(** ** The delta grammar as the specification words it *)
(* ===================================================================== *)

Definition allDigits (l : list ascii) : Prop :=
  Forall (fun c => isDigit c = true) l.

(** "digits followed by the letter L, case-insensitive", somewhere in [s]. *)
Definition LapsBehind (s : list ascii) : Prop :=
  exists before ds c after,
    s = before ++ ds ++ c :: after /\
    ds <> [] /\ allDigits ds /\ isL c = true.

(** "begins with an explicit + or - sign". *)
Definition signChar (negative : bool) : ascii :=
  if negative then "-"%char else "+"%char.

Definition Signed (s : list ascii) : Prop :=
  exists negative v, s = signChar negative :: v.

(** The optional [.fraction] that ends the string: one to three digits. *)
Inductive FractionPart : list ascii -> option (list ascii) -> Prop :=
  | NoFraction : FractionPart [] None
  | SomeFraction f :
      allDigits f -> (1 <= length f <= 3)%nat ->
      FractionPart ("."%char :: f) (Some f).

(** [minutes:seconds[.fraction]] for [Some minutes], [seconds[.fraction]]
    for [None]. *)
Definition DeltaShape (v : list ascii) (minutes : option (list ascii))
    (seconds : list ascii) (fraction : option (list ascii)) : Prop :=
  allDigits seconds /\
  exists tail, FractionPart tail fraction /\
    match minutes with
    | Some m =>
        allDigits m /\ (1 <= length m)%nat /\ (1 <= length seconds <= 2)%nat /\
        v = m ++ ":"%char :: seconds ++ tail
    | None => (1 <= length seconds)%nat /\ v = seconds ++ tail
    end.

Definition FitsGrammar (v : list ascii) : Prop :=
  exists minutes seconds fraction, DeltaShape v minutes seconds fraction.

(** The fraction in thousandths: its digits, padded on the right with as
    many zeros as are missing to three digits. *)
Definition specMillis (fraction : option (list ascii)) : Z :=
  match fraction with
  | Some f => parseInt f * 10 ^ Z.of_nat (3 - length f)
  | None => 0
  end.

(** [sign * (minutes * 60 + seconds + milliseconds / 1000)]. *)
Definition deltaValue (negative : bool) (minutes : option (list ascii))
    (seconds : list ascii) (fraction : option (list ascii)) : Q :=
  (if negative then -1 else 1)
  * (inject_Z (match minutes with Some m => parseInt m | None => 0%Z end) * 60
     + inject_Z (parseInt seconds)
     + inject_Z (specMillis fraction) / 1000).

Definition notDigitHead (t : list ascii) : Prop :=
  match t with
  | [] => True
  | c :: _ => isDigit c = false
  end.

(* ===================================================================== *)
(** ** The reconstruction as the specification words it *)
(* ===================================================================== *)

(** The first candidate that parses. *)
Fixpoint firstParsed (candidates : list (option string)) : option Q :=
  match candidates with
  | [] => None
  | c :: rest =>
      match parseSeconds c with
      | Some v => Some v
      | None => firstParsed rest
      end
  end.

(** [stats[max(0, sessionPart - 1)]] whenever a session part is given. *)
Definition statWhenGiven (d : TimingDataDriver) (sessionPart : option Z)
  : option Stat :=
  match stats d, sessionPart with
  | Some st, Some p => st !! Z.to_nat (Z.max 0 (p - 1))
  | _, _ => None
  end.

Section Reconstruct.
(** How the session part selects the element of [stats]. *)
Variable select : TimingDataDriver -> option Z -> option Stat.
Variable sessionPart : option Z.

Definition specDirect (d : TimingDataDriver) : option Q :=
  firstParsed [ gapToLeader d;
                select d sessionPart ≫= stat_timeDiffToFastest;
                timeDiffToFastest d ].

Definition specInterval (d : TimingDataDriver) : option Q :=
  firstParsed [ intervalToPositionAhead d ≫= interval_value;
                select d sessionPart ≫= stat_timeDifftoPositionAhead;
                timeDiffToPositionAhead d ].

(** The gap of a driver that is not the leader, from the final gap of the
    driver ahead. *)
Definition specGap (previousGap : Q) (d : TimingDataDriver) : Q :=
  match specDirect d with
  | Some direct => Qmax 0 direct
  | None => Qmax 0 (previousGap + default 0 (specInterval d))
  end.

Fixpoint specFold (previousGap : Q) (rest : list TimingDataDriver)
  : list (string * Q) :=
  match rest with
  | [] => []
  | d :: rest' =>
      let g := specGap previousGap d in
      (racingNumber d, g) :: specFold g rest'
  end.

Definition reconstruct (ordered : list TimingDataDriver) : list (string * Q) :=
  match ordered with
  | [] => []
  | first :: rest => (racingNumber first, 0) :: specFold 0 rest
  end.
End Reconstruct.

(** The map that holds the entries, a later entry replacing an earlier one
    with the same racing number. *)
Definition gapMapOf (entries : list (string * Q)) : gmap string Q :=
  fold_left (fun m e => <[e.1 := e.2]> m) entries ∅.


(* ===================================================================== *)
(** ** The quantities the specification names for the scale mapper *)
(* ===================================================================== *)

(** The maximum raw unit over the visible drivers, as the specification
    words it; units are never negative, and the maximum over no driver is
    taken to be 0. *)
Definition maxRawUnit (settings : Settings) (ordered : list TimingDataDriver)
    (sessionPart : option Z) : Q :=
  fold_right Qmax 0
    (map (fun d => Vertical.mapGapToUnit settings ordered sessionPart
                     (Vertical.gapOf ordered sessionPart d))
         (Vertical.visible settings ordered)).

(** [M] is the maximum reconstructed gap among the visible drivers, as the
    specification words it (0 when no driver is visible). *)
Definition isMaxVisibleGap (settings : Settings)
    (ordered : list TimingDataDriver) (sessionPart : option Z) (M : Q) : Prop :=
  (forall d, In d (Vertical.visible settings ordered) ->
     Vertical.gapOf ordered sessionPart d <= M) /\
  ((exists d, In d (Vertical.visible settings ordered) /\
      Vertical.gapOf ordered sessionPart d == M) \/
   (Vertical.visible settings ordered = [] /\ M == 0)).

(* ===================================================================== *)
(** ** Sample snapshots and configurations *)
(* ===================================================================== *)

(** A driver that carries at most a direct gap and an interval. *)
Definition mkDriver (number : string) (direct interval : option string)
  : TimingDataDriver := {|
  racingNumber := number;
  gapToLeader := direct;
  intervalToPositionAhead :=
    match interval with
    | Some v => Some {| interval_value := Some v |}
    | None => None
    end;
  stats := None;
  timeDiffToFastest := None;
  timeDiffToPositionAhead := None;
  lastLapTime := None;
  bestLapTime := None;
|}.

(** A driver whose only signal is the fastest-time difference of the first
    session part. *)
Definition statsOnlyDriver : TimingDataDriver := {|
  racingNumber := "44";
  gapToLeader := None;
  intervalToPositionAhead := None;
  stats := Some [ {| stat_timeDiffToFastest := Some "+1.0"%string;
                     stat_timeDifftoPositionAhead := None |} ];
  timeDiffToFastest := None;
  timeDiffToPositionAhead := None;
  lastLapTime := None;
  bestLapTime := None;
|}.

Definition qualifyingField : list TimingDataDriver :=
  [ mkDriver "1" None None; statsOnlyDriver ].

Definition threeDrivers : list TimingDataDriver :=
  [ mkDriver "1" (Some "+9.9"%string) (Some "+9.9"%string);
    mkDriver "44" (Some "+1.0"%string) None;
    mkDriver "16" None (Some "+0.5"%string) ].


(** A leader and one driver half a second behind. *)
Definition closeField : list TimingDataDriver :=
  [ mkDriver "1" None None; mkDriver "44" (Some "+0.5"%string) None ].

(** A leader and one driver twenty seconds behind. *)
Definition farField : list TimingDataDriver :=
  [ mkDriver "1" None None; mkDriver "44" (Some "+20.0"%string) None ].

(** A leader and one driver five seconds behind. *)
Definition tightField : list TimingDataDriver :=
  [ mkDriver "1" None None; mkDriver "44" (Some "+5.0"%string) None ].

(** The inverted pair of the specification, [G1 = 20] and [G2 = 5]. *)
Definition invertedSettings : Settings := {|
  circleScale := piecewise;
  circleG1 := 20;
  circleG2 := 5;
  circleFixedSeconds := 30;
  circleTopN := 0;
|}.

Definition fixedZeroSettings : Settings := {|
  circleScale := fixed;
  circleG1 := 3;
  circleG2 := 15;
  circleFixedSeconds := 0;
  circleTopN := 0;
|}.

Definition spreadSettings : Settings := {|
  circleScale := spread;
  circleG1 := 3;
  circleG2 := 15;
  circleFixedSeconds := 30;
  circleTopN := 0;
|}.

(** Piecewise thresholds for which a five-second gap is at half of the
    axis. *)
Definition stretchSettings : Settings := {|
  circleScale := piecewise;
  circleG1 := 7;
  circleG2 := 15;
  circleFixedSeconds := 30;
  circleTopN := 0;
|}.

Definition topTwoSettings : Settings := {|
  circleScale := piecewise;
  circleG1 := 3;
  circleG2 := 15;
  circleFixedSeconds := 30;
  circleTopN := 2;
|}.

(* ===================================================================== *)
(** ** [parseLapTimeToSeconds] *)
(* ===================================================================== *)

(** [parseLapTimeToSeconds]: the grammar of [parseSeconds] on the trimmed
    text itself, with no sign and no laps-behind test. *)
Definition parseLapTimeToSeconds (input : option string) : option Q :=
  match input with
  | None => None
  | Some str =>
      match list_ascii_of_string str with
      | [] => None                                   (* !input *)
      | raw =>
          let s := trim raw in
          match matchHms s with
          | Some (m, sec, f) =>
              Some (inject_Z (parseInt m) * 60
                    + inject_Z (parseInt sec)
                    + inject_Z (millis f) / 1000)
          | None =>
              match matchSs s with
              | Some (sec, f) =>
                  Some (inject_Z (parseInt sec) + inject_Z (millis f) / 1000)
              | None => None
              end
          end
      end
  end.

(* ===================================================================== *)
(** ** [getDriverOrder] *)
(* ===================================================================== *)

(** A value of [timing.lines]: the [position] field of a driver, kept
    beside the record of the fields the gap and scale code reads. *)
Record TimingLine := {
  position : option string;
  line : TimingDataDriver;
}.

(** The value of a digit in radix 16, for [parseInt] of a text that starts
    with [0x]. *)
Definition hexValue (c : ascii) : option Z :=
  let n := nat_of_ascii c in
  if ((48 <=? n) && (n <=? 57))%nat then Some (Z.of_nat n - 48)%Z
  else if ((97 <=? n) && (n <=? 102))%nat then Some (Z.of_nat n - 87)%Z
  else if ((65 <=? n) && (n <=? 70))%nat then Some (Z.of_nat n - 55)%Z
  else None.

Definition decValue (c : ascii) : option Z :=
  if isDigit c then Some (digitValue c) else None.

(** The value of the longest prefix of digits of the radix, [None] when
    that prefix is empty ([acc] is [None] until a digit is read). *)
Fixpoint digitsPrefix (value : ascii -> option Z) (radix : Z)
    (s : list ascii) (acc : option Z) : option Z :=
  match s with
  | c :: r =>
      match value c with
      | Some d => digitsPrefix value radix r (Some (radix * default 0%Z acc + d)%Z)
      | None => acc
      end
  | [] => acc
  end.

(** [parseInt(text)] with no radix argument: leading white space is
    skipped, a sign is read, a [0x] or [0X] prefix selects radix 16, and the
    longest prefix of digits is the value; [None] is [NaN]. *)
Definition parseIntJS (text : list ascii) : option Z :=
  let s := trimStart text in
  let (sign, s1) :=
    match s with
    | c :: r =>
        if Ascii.eqb c "-" then ((-1)%Z, r)
        else if Ascii.eqb c "+" then (1%Z, r)
        else (1%Z, s)
    | [] => (1%Z, s)
    end in
  let magnitude :=
    match s1 with
    | z :: x :: r =>
        if (Ascii.eqb z "0" && (Ascii.eqb x "x" || Ascii.eqb x "X"))%bool
        then digitsPrefix hexValue 16 r None
        else digitsPrefix decValue 10 s1 None
    | _ => digitsPrefix decValue 10 s1 None
    end in
  (fun m => (sign * m)%Z) <$> magnitude.

(** [!!d.position]: the field is present and not the empty string. *)
Definition hasPosition (d : TimingLine) : bool :=
  match position d with
  | Some EmptyString => false
  | Some _ => true
  | None => false
  end.

(** [parseInt(d.position)]. *)
Definition positionNumber (d : TimingLine) : option Z :=
  match position d with
  | Some text => parseIntJS (list_ascii_of_string text)
  | None => None
  end.

(** Insertion before the first line with a position that is not smaller:
    a line keeps its place before the later lines of the same position. *)
Fixpoint insertByPosition (x : Z * TimingLine) (l : list (Z * TimingLine))
  : list (Z * TimingLine) :=
  match l with
  | [] => [x]
  | y :: r =>
      if (x.1 <=? y.1)%Z then x :: l else y :: insertByPosition x r
  end.

(** The stable sort by position.  [Array.prototype.sort] is stable, and for
    a comparator that is a difference of numbers the sorted order is then
    unique, so any stable sort stands for it. *)
Definition sortByPosition (l : list (Z * TimingLine)) : list (Z * TimingLine) :=
  fold_right insertByPosition [] l.

(** [getDriverOrder], on the values of [timing.lines] in the order
    [Object.values] lists them.  When the position of a line that is kept
    is not a number the comparator returns [NaN] and the language leaves the
    order to the implementation: the model then gives [None]. *)
Definition getDriverOrder (drivers : option (list TimingLine))
  : option (list TimingLine) :=
  match drivers with
  | None => Some []
  | Some values =>
      let kept := List.filter hasPosition values in
      keyed ← mapM (fun d => (fun k => (k, d)) <$> positionNumber d) kept;
      Some (map snd (sortByPosition keyed))
  end.

(* ===================================================================== *)
(** ** The axis of the Vertical component: [yOf] and the ticks *)
(* ===================================================================== *)

(** The layout constants of the Vertical component. *)
Definition padTop : Q := 10.
Definition padBottom : Q := 28.

(** [yOf]: the pixel row of a unit, for the current [height] of the
    wrapper (a piece of component state, 520 until the first layout). *)
Definition yOf (height unit : Q) : Q :=
  padTop + unit * (height - padTop - padBottom).

(** [for (let s = start; s < bound; s += step) push(s)], run for at most
    [fuel] turns. *)
Fixpoint forSeconds (fuel : nat) (s step bound : Q) : list Q :=
  match fuel with
  | O => []
  | S fuel' =>
      if Qgtb bound s then s :: forSeconds fuel' (s + step) step bound
      else []
  end.

(** The number of turns after which the loop condition fails. *)
Definition turns (start step bound : Q) : nat :=
  Z.to_nat (Qceiling ((bound - start) / step)).

(** The seconds pushed by [for (let s = start; s < limit + 1e-6; s += step)];
    [1e-6] is written [0.000001]. *)
Definition secondsUpTo (start step limit : Q) : list Q :=
  forSeconds (turns start step (limit + 0.000001)) start step (limit + 0.000001).

(** What [pushTick] draws: the seconds, whether the tick is a major one, and
    its pixel row. *)
Record Tick := {
  tickSec : Q;
  tickMajor : bool;
  tickY : Q;
}.

Section Ticks.
Variable settings : Settings.
Variable ordered : list TimingDataDriver.
Variable sessionPart : option Z.
Variable height : Q.

Definition pushTick (sec : Q) (major : bool) : Tick :=
  let u := Vertical.mapGapToUnit settings ordered sessionPart sec
           * Vertical.stretchFactor settings ordered sessionPart in
  {| tickSec := sec; tickMajor := major; tickY := yOf height (Qmin 1 u) |}.

(** [Math.min(30, Math.floor(base))]. *)
Definition tickLimit : Q :=
  Qmin 30 (inject_Z (Qfloor (Vertical.linearBase settings ordered sessionPart))).

(** [base <= 12 ? 0.5 : 0]. *)
Definition minorStep : Q :=
  if Qle_bool (Vertical.linearBase settings ordered sessionPart) 12
  then 0.5 else 0.

(** The ticks of the Vertical axis, in the order they are pushed. *)
Definition ticks : list Tick :=
  match Vertical.scaleType settings with
  | piecewise =>
      map (fun s => pushTick s false)
          (secondsUpTo 0.5 0.5 (Vertical.G1 settings))
      ++ map (fun s => pushTick s true)
             (secondsUpTo 1 1 (Vertical.G2 settings))
  | _ =>
      (if Qgtb minorStep 0
       then map (fun s => pushTick s false)
                (secondsUpTo minorStep minorStep tickLimit)
       else [])
      ++ map (fun s => pushTick s true) (secondsUpTo 1 1 tickLimit)
  end.
End Ticks.

(* ===================================================================== *)
(** ** The sector lights and the connectors of the Vertical component *)
(* ===================================================================== *)

(** A sector of a driver's current lap ([Sector] of [@/types/state.type]);
    an absent flag is [false]. *)
Record Sector := {
  sector_value : option string;
  sector_overallFastest : bool;
  sector_personalFastest : bool;
}.

(** A string as a condition: the empty string is falsy. *)
Definition truthyText (t : option string) : bool :=
  match t with
  | Some EmptyString => false
  | Some _ => true
  | None => false
  end.

(** The loop [for (i = 0; i < Math.min(3, sectors.length); i++)
    if (sectors[i]?.value) lastUpdated = i], from index [i] on, with [bound]
    turns left. *)
Fixpoint lastUpdatedFrom (bound : nat) (i : Z) (sectors : list Sector)
    (lastUpdated : Z) : Z :=
  match bound, sectors with
  | S bound', s :: rest =>
      lastUpdatedFrom bound' (i + 1) rest
        (if truthyText (sector_value s) then i else lastUpdated)
  | _, _ => lastUpdated
  end.

(** The index of the rectangle that gets the red outline, [-1] for none. *)
Definition lastUpdatedSector (sectors : list Sector) : Z :=
  lastUpdatedFrom 3 0 sectors (-1).

(** The text beside a connector: the interval text of the feed, or the
    computed seconds (shown with three decimals). *)
Inductive ConnectorLabel :=
  | FeedText (text : string)
  | ComputedSeconds (sec : Q).

(** What the connector loop pushes for a pair of adjacent dots; the colour,
    taken from the [catching] flag, is left out. *)
Record Connector := {
  connRacingNumber : string;
  connTop : Q;
  connBottom : Q;
  connInterval : Q;
  connLabel : ConnectorLabel;
}.

Definition MIN_PIXELS : Q := 18.

Section Connectors.
Variable height : Q.
(** [timing.lines], empty when the snapshot is absent. *)
Variable lines : gmap string TimingDataDriver.

(** One turn of the loop, for [prev = dots[i-1]] and [cur = dots[i]]:
    [None] when the turn ends in [continue]. *)
Definition connectorOf (prev cur : Vertical.Dot) : option Connector :=
  let y1 := yOf height (Vertical.y prev) in
  let y2 := yOf height (Vertical.y cur) in
  let top := Qmin y1 y2 in
  let bottom := Qmax y1 y2 in
  let h := bottom - top in
  if Qgtb MIN_PIXELS h then None
  else
    let valStr : option string :=
      ((lines !! Vertical.dotRacingNumber cur) ≫= intervalToPositionAhead)
        ≫= interval_value in
    let parsed := if truthyText valStr then parseSeconds valStr else None in
    let intervalSec :=
      match parsed with
      | Some p => Qabs p
      | None => Qmax 0 (Vertical.gap cur - Vertical.gap prev)
      end in
    if negb (Number_isFinite intervalSec && Qle_bool 1 intervalSec) then None
    else
      Some {| connRacingNumber := Vertical.dotRacingNumber cur;
              connTop := top;
              connBottom := bottom;
              connInterval := intervalSec;
              connLabel :=
                match valStr with
                | Some text =>
                    if truthyText valStr && Qle_bool 1 intervalSec
                    then FeedText text else ComputedSeconds intervalSec
                | None => ComputedSeconds intervalSec
                end |}.

(** The loop from index [i] on, with [prev = dots[i-1]]. *)
Fixpoint connectorLoop (prev : Vertical.Dot) (rest : list Vertical.Dot)
  : list Connector :=
  match rest with
  | [] => []
  | cur :: rest' =>
      match connectorOf prev cur with
      | Some c => c :: connectorLoop cur rest'
      | None => connectorLoop cur rest'
      end
  end.

Definition connectors (showConnectors : bool) (dots : list Vertical.Dot)
  : list Connector :=
  if showConnectors then
    match dots with
    | [] => []
    | first :: rest => connectorLoop first rest
    end
  else [].
End Connectors.

(* ===================================================================== *)
(** ** Further notions the statements use *)
(* ===================================================================== *)

(** A list of white space only. *)
Definition allWhiteSpace (l : list ascii) : Prop :=
  Forall (fun c => isWhiteSpace c = true) l.

(** A lap-time field that is absent or holds a text [parseLapTimeToSeconds]
    accepts. *)
Definition lapTimeOrAbsent (t : option LapTime) : Prop :=
  match t ≫= lap_value with
  | None => True
  | Some text => is_Some (parseLapTimeToSeconds (Some text))
  end.

(** A non-negative whole number of milliseconds. *)
Definition wholeMillis (g : Q) : Prop :=
  0 <= g /\ exists ms : Z, g == inject_Z ms / 1000.

(** The lines [a] and [b] both have a numeric position, that of [a] not
    behind that of [b]. *)
Definition positionLe (a b : TimingLine) : Prop :=
  match positionNumber a, positionNumber b with
  | Some x, Some y => (x <= y)%Z
  | _, _ => False
  end.

(** The lines at position [k]. *)
Definition atPosition (k : Z) (d : TimingLine) : bool :=
  bool_decide (positionNumber d = Some k).

(** The pairs built by [getDriverOrder] carry the position of their line. *)
Definition keyedRight (p : Z * TimingLine) : Prop :=
  positionNumber p.2 = Some p.1.

(** The sector at index [i] exists and holds a value. *)
Definition hasValueAt (sectors : list Sector) (i : nat) : Prop :=
  exists s, sectors !! i = Some s /\ truthyText (sector_value s) = true.

(* ===================================================================== *)
(** ** Further samples *)
(* ===================================================================== *)

(** A snapshot out of order, with one line that has no position. *)
Definition sampleLines : list TimingLine :=
  [ {| position := Some "2"%string;
       line := mkDriver "44" (Some "+1.0"%string) None |};
    {| position := Some EmptyString; line := mkDriver "16" None None |};
    {| position := Some "1"%string; line := mkDriver "1" None None |} ].

(** A leader whose last lap is on the feed as a lap time. *)
Definition lapLeader : TimingDataDriver := {|
  racingNumber := "1";
  gapToLeader := None;
  intervalToPositionAhead := None;
  stats := None;
  timeDiffToFastest := None;
  timeDiffToPositionAhead := None;
  lastLapTime := Some {| lap_value := Some "1:20.901"%string |};
  bestLapTime := None;
|}.

(** Two sectors done, the third not yet. *)
Definition sampleSectors : list Sector :=
  [ {| sector_value := Some "28.1"%string; sector_overallFastest := false;
       sector_personalFastest := true |};
    {| sector_value := Some "31.4"%string; sector_overallFastest := false;
       sector_personalFastest := false |};
    {| sector_value := Some EmptyString; sector_overallFastest := false;
       sector_personalFastest := false |} ].

(* ===================================================================== *)
(** ** Rational arithmetic: conditions, [Math.max] and [Math.min] *)
(* ===================================================================== *)

Lemma Qle_bool_false x y : Qle_bool x y = false <-> y < x.
Proof.
  split; intros H.
  - apply Qnot_le_lt. intros Hle. apply Qle_bool_iff in Hle. congruence.
  - destruct (Qle_bool x y) eqn:E; [|done]. apply Qle_bool_iff in E. lra.
Qed.

Lemma Qgtb_true a b : Qgtb a b = true <-> b < a.
Proof.
  unfold Qgtb. rewrite negb_true_iff. apply Qle_bool_false.
Qed.

(** Turn boolean comparisons in the context into propositions. *)
Ltac qbool :=
  repeat match goal with
    | H : Qle_bool _ _ = true |- _ => apply Qle_bool_iff in H
    | H : Qle_bool _ _ = false |- _ => apply Qle_bool_false in H
    | H : Qeq_bool _ _ = true |- _ => apply Qeq_bool_iff in H
    | H : Qeq_bool _ _ = false |- _ => apply Qeq_bool_neq in H
    end.

(** Case analysis on every comparison of the goal. *)
Ltac qcases :=
  repeat match goal with
    | |- context [Qle_bool ?a ?b] => destruct (Qle_bool a b) eqn:?
    | |- context [Qeq_bool ?a ?b] => destruct (Qeq_bool a b) eqn:?
    end; qbool.

(** Case analysis on every [Qmax] and [Qmin] of the goal. *)
Ltac qminmax :=
  repeat match goal with
    | |- context [Qmax ?a ?b] =>
        let H := fresh in
        destruct (Q.max_spec a b) as [[? H]|[? H]];
        generalize dependent (Qmax a b); intros
    | |- context [Qmin ?a ?b] =>
        let H := fresh in
        destruct (Q.min_spec a b) as [[? H]|[? H]];
        generalize dependent (Qmin a b); intros
    end.

Lemma orDefault_nonzero x d : ~ x == 0 -> orDefault x d = x.
Proof.
  intros H. unfold orDefault. destruct (Qeq_bool x 0) eqn:E; [|done].
  apply Qeq_bool_iff in E. contradiction.
Qed.

Lemma orDefault_zero x d : x == 0 -> orDefault x d = d.
Proof.
  intros H. unfold orDefault. apply Qeq_bool_iff in H. by rewrite H.
Qed.

(** The reciprocal of a positive divisor, as [nra] needs it. *)
Lemma inv_pos_facts d : 0 < d -> 0 < / d /\ d * / d == 1.
Proof.
  intros H. split; [by apply Qinv_lt_0_compat|]. apply Qmult_inv_r. lra.
Qed.

(* ===================================================================== *)
(** ** The effective thresholds and denominators *)
(* ===================================================================== *)

Lemma effG1_lower s : 0.5 <= effG1 s.
Proof. unfold effG1. apply Q.le_max_l. Qed.

Lemma effG2_lower s : effG1 s + 0.5 <= effG2 s.
Proof. unfold effG2. apply Q.le_max_l. Qed.

Lemma linearBase_lower s o p : 1 <= Vertical.linearBase s o p.
Proof. unfold Vertical.linearBase. destruct (Vertical.scaleType s); apply Q.le_max_l. Qed.

(* ===================================================================== *)
(** ** [Math.max] over a list *)
(* ===================================================================== *)

Lemma fold_Qmax_ge xs : forall x, x <= fold_left Qmax xs x.
Proof.
  induction xs as [|a xs IH]; intros x; cbn; [lra|].
  apply Qle_trans with (Qmax x a); [apply Q.le_max_l|apply IH].
Qed.

Lemma fold_Qmax_upper xs : forall x v, In v xs -> v <= fold_left Qmax xs x.
Proof.
  induction xs as [|a xs IH]; intros x v; cbn; [done|].
  intros [->|Hin]; [|by apply IH].
  apply Qle_trans with (Qmax x v); [apply Q.le_max_r|apply fold_Qmax_ge].
Qed.

Lemma fold_Qmax_in xs : forall x, In (fold_left Qmax xs x) (x :: xs).
Proof.
  induction xs as [|a xs IH]; intros x; cbn; [by left|].
  destruct (IH (Qmax x a)) as [E|Hin]; [|by right; right].
  rewrite <- E.
  unfold Qmax, GenericMinMax.gmax. destruct (x ?= a); auto.
Qed.

Lemma Math_max_upper l v : In v l -> v <= Math_max l.
Proof.
  destruct l as [|x xs]; [done|]. cbn.
  intros [->|Hin]; [apply fold_Qmax_ge|by apply fold_Qmax_upper].
Qed.

Lemma Math_max_in l : l <> [] -> In (Math_max l) l.
Proof. destruct l as [|x xs]; [done|]. intros _. apply fold_Qmax_in. Qed.

Lemma fold_right_Qmax_lower l : 0 <= fold_right Qmax 0 l.
Proof.
  induction l as [|a l IH]; cbn; [lra|].
  apply Qle_trans with (fold_right Qmax 0 l); [done|apply Q.le_max_r].
Qed.

Lemma fold_right_Qmax_upper l v : In v l -> v <= fold_right Qmax 0 l.
Proof.
  induction l as [|a l IH]; cbn; [done|].
  intros [->|Hin]; [apply Q.le_max_l|].
  apply Qle_trans with (fold_right Qmax 0 l); [by apply IH|apply Q.le_max_r].
Qed.

Lemma fold_right_Qmax_lub l b :
  0 <= b -> (forall v, In v l -> v <= b) -> fold_right Qmax 0 l <= b.
Proof.
  intros Hb. induction l as [|a l IH]; cbn; intros Hall; [done|].
  apply Q.max_lub; [apply Hall; by left|]. apply IH. intros v Hv. apply Hall. by right.
Qed.

Lemma filter_isFinite l : List.filter Number_isFinite l = l.
Proof. induction l as [|a l IH]; cbn; [done|]. by rewrite IH. Qed.

Lemma Qdiv_360 q : q / 360 == q * (1 # 360).
Proof. reflexivity. Qed.

Lemma Qmin_scale x : Qmin 360 (x * 360) / 360 == Qmin 1 x.
Proof. rewrite Qdiv_360. qminmax; lra. Qed.

(* ===================================================================== *)
(** ** The matchers recognise the grammar *)
(* ===================================================================== *)

Lemma spanDigits_spec s : forall d t,
  spanDigits s = (d, t) -> s = d ++ t /\ allDigits d /\ notDigitHead t.
Proof.
  induction s as [|c s IH]; intros d t; cbn.
  { intros [= <- <-]. repeat split. constructor. }
  destruct (isDigit c) eqn:Ec.
  - destruct (spanDigits s) as [d' t'] eqn:E. intros [= <- <-].
    destruct (IH d' t' eq_refl) as (-> & Hd & Ht).
    repeat split; [by constructor|done].
  - intros [= <- <-]. repeat split; [constructor|done].
Qed.

Lemma spanDigits_app d : forall t,
  allDigits d -> notDigitHead t -> spanDigits (d ++ t) = (d, t).
Proof.
  induction d as [|c d IH]; intros t Hd Ht.
  - destruct t as [|c t]; [done|]. cbn in *. by rewrite Ht.
  - apply Forall_cons in Hd as [Hc Hd]. cbn. by rewrite Hc, IH.
Qed.

Lemma FractionPart_head tail f : FractionPart tail f -> notDigitHead tail.
Proof. by intros []. Qed.

Lemma matchFraction_iff tail f :
  matchFraction tail = Some f <-> FractionPart tail f.
Proof.
  split.
  - destruct tail as [|c r]; unfold matchFraction.
    { intros [= <-]. constructor. }
    destruct (Ascii.eqb c ".") eqn:Ec; [|done].
    apply Ascii.eqb_eq in Ec as ->.
    destruct (spanDigits r) as [fd [|? ?]] eqn:E; [|done].
    destruct (_ && _)%bool eqn:El; [|done]. intros [= <-].
    apply spanDigits_spec in E as (-> & Hd & _). rewrite app_nil_r.
    apply andb_true_iff in El as [L1%Nat.leb_le L2%Nat.leb_le].
    by constructor.
  - intros [|fd Hd [L1 L2]]; [done|]. unfold matchFraction.
    rewrite Ascii.eqb_refl.
    rewrite <- (app_nil_r fd) at 1. rewrite spanDigits_app by done.
    apply Nat.leb_le in L1, L2. by rewrite L1, L2.
Qed.

Lemma matchHms_iff v m s f :
  matchHms v = Some (m, s, f) <-> DeltaShape v (Some m) s f.
Proof.
  unfold matchHms, DeltaShape. split.
  - destruct (spanDigits v) as [m' [|c r2]] eqn:E; [done|].
    destruct (Ascii.eqb c ":" && _)%bool eqn:Ec; [|done].
    apply andb_true_iff in Ec as [->%Ascii.eqb_eq Lm%Nat.leb_le].
    destruct (spanDigits r2) as [s' r3] eqn:E2.
    destruct (_ && _)%bool eqn:El; [|done].
    apply andb_true_iff in El as [L1%Nat.leb_le L2%Nat.leb_le].
    destruct (matchFraction r3) as [f'|] eqn:Ef; [|done]. intros [= <- <- <-].
    apply spanDigits_spec in E as (-> & Hm & _).
    apply spanDigits_spec in E2 as (-> & Hs & _).
    apply matchFraction_iff in Ef.
    split; [done|]. exists r3. done.
  - intros (Hs & tail & Hf & Hm & Lm & [L1 L2] & ->).
    rewrite spanDigits_app by done.
    apply Nat.leb_le in Lm, L1, L2.
    rewrite Ascii.eqb_refl, Lm. cbn [andb].
    rewrite spanDigits_app by (done || by eapply FractionPart_head).
    rewrite L1, L2. cbn [andb]. apply matchFraction_iff in Hf. by rewrite Hf.
Qed.

Lemma matchSs_iff v s f :
  matchSs v = Some (s, f) <-> DeltaShape v None s f.
Proof.
  unfold matchSs, DeltaShape. split.
  - destruct (spanDigits v) as [s' r] eqn:E.
    destruct (1 <=? length s')%nat eqn:L1; [|done].
    destruct (matchFraction r) as [f'|] eqn:Ef; [|done]. intros [= <- <-].
    apply spanDigits_spec in E as (-> & Hs & _).
    apply matchFraction_iff in Ef. apply Nat.leb_le in L1.
    split; [done|]. exists r. done.
  - intros (Hs & tail & Hf & L1 & ->).
    rewrite spanDigits_app by (done || by eapply FractionPart_head).
    apply Nat.leb_le in L1. rewrite L1.
    apply matchFraction_iff in Hf. by rewrite Hf.
Qed.

(** The two grammars exclude each other. *)
Lemma matchHms_none_of_seconds v s f :
  DeltaShape v None s f -> matchHms v = None.
Proof.
  intros (Hs & tail & Hf & L1 & ->). unfold matchHms.
  rewrite spanDigits_app by (done || by eapply FractionPart_head).
  destruct Hf; done.
Qed.

Lemma lapsAt_cons d rest :
  lapsAt (d :: rest)
  = isDigit d
    && ((match rest with c :: _ => isL c | [] => false end) || lapsAt rest).
Proof. reflexivity. Qed.

Lemma lapsAt_iff s :
  lapsAt s = true <->
  exists ds c after,
    s = ds ++ c :: after /\ ds <> [] /\ allDigits ds /\ isL c = true.
Proof.
  split.
  - induction s as [|d rest IH]; [done|]. cbn [lapsAt].
    intros [Hd Hrest]%andb_true_iff.
    apply orb_true_iff in Hrest as [Hl|Hrec].
    + destruct rest as [|c after]; [done|].
      exists [d], c, after. repeat split; [done|by constructor|done].
    + destruct (IH Hrec) as (ds & c & after & -> & _ & Hds & Hl).
      exists (d :: ds), c, after. repeat split; [done|by constructor|done].
  - intros (ds & c & after & -> & Hne & Hds & Hl).
    induction ds as [|d ds IH]; [done|].
    apply Forall_cons in Hds as [Hd Hds].
    destruct ds as [|d' ds].
    + cbn. by rewrite Hd, Hl.
    + specialize (IH ltac:(done) Hds).
      change ((d :: d' :: ds) ++ c :: after)
        with (d :: ((d' :: ds) ++ c :: after)).
      rewrite lapsAt_cons, Hd, IH. apply orb_true_r.
Qed.

Lemma lapsTest_iff s : lapsTest s = true <-> LapsBehind s.
Proof.
  unfold LapsBehind. split.
  - induction s as [|a rest IH]; [done|]. cbn [lapsTest].
    intros [Hat|Hrec]%orb_true_iff.
    + apply lapsAt_iff in Hat as (ds & c & after & E & H).
      exists [], ds, c, after. done.
    + destruct (IH Hrec) as (before & ds & c & after & -> & H).
      exists (a :: before), ds, c, after. done.
  - intros (before & ds & c & after & -> & Hne & Hds & Hl).
    induction before as [|a before IH].
    + assert (Hat : lapsAt (ds ++ c :: after) = true).
      { apply lapsAt_iff. exists ds, c, after. done. }
      destruct ds as [|d ds]; [done|]. cbn [app lapsTest] in *. by rewrite Hat.
    + cbn [app lapsTest]. rewrite IH. apply orb_true_r.
Qed.

Lemma parseInt_zeros n : forall a,
  fold_left (fun acc c => 10 * acc + digitValue c)%Z (repeat "0"%char n) a
  = (a * 10 ^ Z.of_nat n)%Z.
Proof.
  induction n as [|n IH]; intros a; cbn [repeat fold_left].
  - cbn. lia.
  - rewrite IH, Nat2Z.inj_succ, Z.pow_succ_r by lia.
    change (digitValue "0") with 0%Z. lia.
Qed.

(** Padding with zeros scales the fraction to thousandths. *)
Lemma millis_spec f : millis f = specMillis f.
Proof.
  destruct f as [f|]; [|done]. unfold millis, specMillis, padEnd3, parseInt.
  by rewrite fold_left_app, parseInt_zeros.
Qed.

Lemma list_ascii_nil str : list_ascii_of_string str = [] -> str = EmptyString.
Proof. by destruct str. Qed.

Lemma sign_test negative :
  (Ascii.eqb (signChar negative) "+" || Ascii.eqb (signChar negative) "-")%bool
    = true /\
  Ascii.eqb (signChar negative) "-" = negative.
Proof. by destruct negative. Qed.

Lemma sign_test_inv c :
  (Ascii.eqb c "+" || Ascii.eqb c "-")%bool = true ->
  exists negative, c = signChar negative.
Proof.
  intros [->%Ascii.eqb_eq| ->%Ascii.eqb_eq]%orb_true_iff;
    [by exists false|by exists true].
Qed.

(** What [parseSeconds] does with a non-empty string, in terms of the
    trimmed text. *)
Lemma parseSeconds_unfold str :
  str <> EmptyString ->
  parseSeconds (Some str)
  = let s := trim (list_ascii_of_string str) in
    if lapsTest s then None
    else
      match s with
      | c :: v =>
          if (Ascii.eqb c "+" || Ascii.eqb c "-")%bool then
            let sign : Q := if Ascii.eqb c "-" then -1 else 1 in
            match matchHms v with
            | Some (m, sec, f) =>
                Some (sign * (inject_Z (parseInt m) * 60
                              + inject_Z (parseInt sec)
                              + inject_Z (millis f) / 1000))
            | None =>
                match matchSs v with
                | Some (sec, f) =>
                    Some (sign * (inject_Z (parseInt sec)
                                  + inject_Z (millis f) / 1000))
                | None => None
                end
            end
          else None
      | [] => None
      end.
Proof.
  intros Hne. unfold parseSeconds.
  destruct (list_ascii_of_string str) eqn:E; [|done].
  by apply list_ascii_nil in E.
Qed.

Lemma parseSeconds_none_iff str :
  let t := trim (list_ascii_of_string str) in
  parseSeconds (Some str) = None <->
  str = EmptyString \/ LapsBehind t \/ ~ Signed t \/ ~ FitsGrammar (tail t).
Proof.
  cbv zeta. destruct (decide (str = EmptyString)) as [->|Hne].
  { split; [by left|done]. }
  rewrite (parseSeconds_unfold str Hne). cbv zeta.
  set (t := trim (list_ascii_of_string str)).
  destruct (lapsTest t) eqn:El.
  { split; [|done]. intros _. right. left. by apply lapsTest_iff. }
  assert (Hnl : ~ LapsBehind t).
  { intros H%lapsTest_iff. congruence. }
  destruct t as [|c v].
  { split; [|done]. intros _. right. right. left. by intros (n & v & [=]). }
  destruct (Ascii.eqb c "+" || Ascii.eqb c "-")%bool eqn:Es.
  2:{ split; [|done]. intros _. right. right. left.
      intros (n & v' & [= -> ->]).
      destruct (sign_test n) as [H _]. congruence. }
  assert (Hsigned : Signed (c :: v)).
  { destruct (sign_test_inv c Es) as [n ->]. by exists n, v. }
  cbn [tail].
  destruct (matchHms v) as [[[m sec] f]|] eqn:Eh.
  { split; [done|]. intros [?|[?|[?|Hfit]]]; try done.
    destruct Hfit. exists (Some m), sec, f. by apply matchHms_iff. }
  destruct (matchSs v) as [[sec f]|] eqn:Ess.
  { split; [done|]. intros [?|[?|[?|Hfit]]]; try done.
    destruct Hfit. exists None, sec, f. by apply matchSs_iff. }
  split; [|done]. intros _. do 3 right.
  intros ([m|] & sec & f & Hshape).
  - apply matchHms_iff in Hshape. congruence.
  - apply matchSs_iff in Hshape. congruence.
Qed.

Lemma parseSeconds_value str negative v minutes seconds fraction :
  trim (list_ascii_of_string str) = signChar negative :: v ->
  ~ LapsBehind (trim (list_ascii_of_string str)) ->
  DeltaShape v minutes seconds fraction ->
  exists q, parseSeconds (Some str) = Some q /\
            q == deltaValue negative minutes seconds fraction.
Proof.
  intros Et Hnl Hshape.
  assert (Hne : str <> EmptyString) by (intros ->; done).
  rewrite (parseSeconds_unfold str Hne). cbv zeta. rewrite Et in *.
  destruct (lapsTest _) eqn:El; [by apply lapsTest_iff in El|].
  destruct (sign_test negative) as [-> ->].
  unfold deltaValue. rewrite <- millis_spec.
  destruct minutes as [m|].
  - apply matchHms_iff in Hshape. rewrite Hshape. eexists. split; [done|].
    reflexivity.
  - rewrite (matchHms_none_of_seconds _ _ _ Hshape).
    apply matchSs_iff in Hshape. rewrite Hshape. eexists. split; [done|].
    generalize (inject_Z (millis fraction) / 1000). intros b.
    destruct negative; ring.
Qed.

Lemma parse_examples :
  (exists q, parseSeconds (Some "+1:02.500"%string) = Some q /\ q == 62.5) /\
  (exists q, parseSeconds (Some "-0.250"%string) = Some q /\ q == -0.25) /\
  parseSeconds (Some "1L"%string) = None /\
  parseSeconds (Some "1.234"%string) = None /\
  (exists q, parseSeconds (Some "+0.5"%string) = Some q /\ q == 0.5).
Proof.
  repeat split; try (eexists; split; [vm_compute; reflexivity|reflexivity]);
    vm_compute; reflexivity.
Qed.

(** C2 (as the code has it).  With [t] the input stripped of surrounding
    white space: [parseSeconds] returns no value exactly when the input is
    absent or empty, [t] holds digits followed by the letter L (in either
    case), [t] does not begin with [+] or [-], or what follows the sign fits
    neither [minutes:seconds[.fraction]] nor [seconds[.fraction]]; otherwise
    it returns [sign * (minutes * 60 + seconds + milliseconds / 1000)], the
    fraction being padded on the right with zeros to thousandths.  So
    ["+1:02.500"] gives 62.5, ["-0.250"] gives -0.25, ["1L"] and ["1.234"]
    give nothing, and a fraction [.5] is 500 ms. *)
Theorem parseSeconds_grammar :
  parseSeconds None = None /\
  (forall str,
     parseSeconds (Some str) = None <->
     str = EmptyString \/
     LapsBehind (trim (list_ascii_of_string str)) \/
     ~ Signed (trim (list_ascii_of_string str)) \/
     ~ FitsGrammar (tail (trim (list_ascii_of_string str)))) /\
  (forall str negative v minutes seconds fraction,
     trim (list_ascii_of_string str) = signChar negative :: v ->
     ~ LapsBehind (trim (list_ascii_of_string str)) ->
     DeltaShape v minutes seconds fraction ->
     exists q, parseSeconds (Some str) = Some q /\
               q == deltaValue negative minutes seconds fraction) /\
  ((exists q, parseSeconds (Some "+1:02.500"%string) = Some q /\ q == 62.5) /\
   (exists q, parseSeconds (Some "-0.250"%string) = Some q /\ q == -0.25) /\
   parseSeconds (Some "1L"%string) = None /\
   parseSeconds (Some "1.234"%string) = None /\
   (exists q, parseSeconds (Some "+0.5"%string) = Some q /\ q == 0.5)) /\
  specMillis (Some ["5"%char]) = 500%Z.
Proof.
  split; [done|]. split; [apply parseSeconds_none_iff|].
  split; [apply parseSeconds_value|]. split; [apply parse_examples|done].
Qed.

(** The value clause at the text ["+1:02.500"]. *)
Lemma parseSeconds_grammar_witness :
  exists q, parseSeconds (Some "+1:02.500"%string) = Some q /\
            q == deltaValue false (Some ["1"%char]) ["0"; "2"]%char
                   (Some ["5"; "0"; "0"]%char).
Proof.
  apply (proj1 (proj2 (proj2 parseSeconds_grammar))
           "+1:02.500"%string false
           (list_ascii_of_string "1:02.500") (Some ["1"%char])
           ["0"; "2"]%char (Some ["5"; "0"; "0"]%char)).
  - reflexivity.
  - intros H. apply lapsTest_iff in H. vm_compute in H. discriminate.
  - split; [by repeat constructor|].
    exists ("."%char :: ["5"; "0"; "0"]%char). split.
    + constructor; [by repeat constructor|cbn; lia].
    + split; [by repeat constructor|]. cbn. repeat split; lia.
Defined.

(** C2 as stated fails for an input with surrounding white space: the text
    [" +1.0"] does not begin with a sign, and yet parses to 1. *)
Lemma leading_space_counterexample :
  ~ Signed (list_ascii_of_string " +1.0") /\
  exists q, parseSeconds (Some " +1.0"%string) = Some q /\ q == 1.
Proof.
  split.
  - intros ([|] & v & [=]).
  - eexists. split; [vm_compute; reflexivity|reflexivity].
Qed.

(* ===================================================================== *)
(** ** [computeGapsSeconds] is the fold of the specification *)
(* ===================================================================== *)

Lemma statOfPart_given d sessionPart :
  statOfPart d sessionPart
  = match sessionPart with
    | Some 0%Z => None
    | _ => statWhenGiven d sessionPart
    end.
Proof.
  unfold statOfPart, statWhenGiven, truthyPart.
  destruct (stats d), sessionPart as [[| |]|]; done.
Qed.

Lemma getGapToLeaderSeconds_spec d sessionPart :
  getGapToLeaderSeconds d sessionPart = specDirect statOfPart sessionPart d.
Proof.
  unfold getGapToLeaderSeconds, specDirect, orElse. cbn [firstParsed].
  destruct (parseSeconds (gapToLeader d)); [done|].
  destruct (parseSeconds (_ ≫= _)); [done|].
  by destruct (parseSeconds (timeDiffToFastest d)).
Qed.

Lemma getIntervalAheadSeconds_spec d sessionPart :
  getIntervalAheadSeconds d sessionPart = specInterval statOfPart sessionPart d.
Proof.
  unfold getIntervalAheadSeconds, specInterval, orElse. cbn [firstParsed].
  destruct (parseSeconds (intervalToPositionAhead d ≫= _)); [done|].
  destruct (parseSeconds (statOfPart _ _ ≫= _)); [done|].
  by destruct (parseSeconds (timeDiffToPositionAhead d)).
Qed.

Section FoldProof.
Variable sessionPart : option Z.

Abbreviation insertEntry :=
  (fun (m : gmap string Q) (e : string * Q) => <[e.1 := e.2]> m).
Abbreviation specGap' := (specGap statOfPart sessionPart).
Abbreviation specFold' := (specFold statOfPart sessionPart).

(** One turn of the loop, when the map holds the final gap of the driver
    ahead. *)
Lemma gapStep_spec prev d (gaps : gmap string Q) g :
  gaps !! racingNumber prev = Some g ->
  gapStep sessionPart prev d gaps = <[racingNumber d := specGap' g d]> gaps.
Proof.
  intros Hprev. unfold gapStep, specGap.
  rewrite getGapToLeaderSeconds_spec, getIntervalAheadSeconds_spec.
  destruct (specDirect _ _ d); [done|]. by rewrite Hprev.
Qed.

Lemma gapLoop_spec rest : forall prev (gaps : gmap string Q) g,
  gaps !! racingNumber prev = Some g ->
  gapLoop sessionPart prev rest gaps
  = fold_left insertEntry (specFold' g rest) gaps.
Proof.
  induction rest as [|d rest IH]; intros prev gaps g Hprev; [done|].
  cbn [gapLoop specFold fold_left].
  rewrite (gapStep_spec prev d gaps g Hprev).
  apply IH. apply lookup_insert_eq.
Qed.

Lemma computeGapsSeconds_fold ordered :
  computeGapsSeconds ordered sessionPart
  = gapMapOf (reconstruct statOfPart sessionPart ordered).
Proof.
  destruct ordered as [|first rest]; [done|].
  unfold computeGapsSeconds, gapMapOf, reconstruct. cbn [fold_left].
  apply gapLoop_spec, lookup_insert_eq.
Qed.

Lemma fold_insert_other (entries : list (string * Q)) :
  forall (m : gmap string Q) k,
  ~ In k (map fst entries) ->
  fold_left insertEntry entries m !! k = m !! k.
Proof.
  induction entries as [|[k' v'] entries IH]; intros m k Hk; [done|].
  cbn [fold_left]. rewrite IH.
  - apply lookup_insert_ne. cbn. intros ->. apply Hk. by left.
  - intros Hin. apply Hk. by right.
Qed.

Lemma fold_insert_lookup (entries : list (string * Q)) :
  forall (m : gmap string Q) i k v,
  List.NoDup (map fst entries) ->
  entries !! i = Some (k, v) ->
  fold_left insertEntry entries m !! k = Some v.
Proof.
  induction entries as [|[k' v'] entries IH]; intros m i k v Hnd Hi; [done|].
  apply List.NoDup_cons_iff in Hnd as [Hk' Hnd].
  destruct i as [|i]; cbn in Hi.
  - injection Hi as -> ->. cbn [fold_left].
    rewrite fold_insert_other by done. cbn. apply lookup_insert_eq.
  - cbn [fold_left]. by eapply IH.
Qed.

Lemma specFold_keys rest : forall g,
  map fst (specFold' g rest) = map racingNumber rest.
Proof.
  induction rest as [|d rest IH]; intros g; [done|].
  cbn. by rewrite IH.
Qed.

Lemma reconstruct_keys ordered :
  map fst (reconstruct statOfPart sessionPart ordered) = map racingNumber ordered.
Proof.
  destruct ordered as [|first rest]; [done|]. cbn. by rewrite specFold_keys.
Qed.

(** Consecutive drivers have consecutive entries, the second one computed
    from the gap of the first. *)
Lemma specFold_chain rest : forall first g0 i prev d,
  (first :: rest) !! i = Some prev ->
  (first :: rest) !! S i = Some d ->
  exists g,
    ((racingNumber first, g0) :: specFold' g0 rest) !! i
      = Some (racingNumber prev, g) /\
    ((racingNumber first, g0) :: specFold' g0 rest) !! S i
      = Some (racingNumber d, specGap' g d).
Proof.
  induction rest as [|d0 rest IH]; intros first g0 i prev d Hprev Hd.
  { destruct i; cbn in Hd; done. }
  destruct i as [|i].
  - cbn in Hprev, Hd. injection Hprev as <-. injection Hd as <-.
    exists g0. done.
  - cbn [specFold]. apply (IH d0 (specGap' g0 d0) i prev d Hprev Hd).
Qed.
End FoldProof.

Lemma fold_insert_dom (entries : list (string * Q)) :
  forall (m : gmap string Q) k,
  is_Some (fold_left (fun m e => <[e.1 := e.2]> m) entries m !! k)
  <-> In k (map fst entries) \/ is_Some (m !! k).
Proof.
  induction entries as [|[k' v'] entries IH]; intros m k; cbn [fold_left map].
  { split; [by right|by intros [[]|?]]. }
  rewrite IH. cbn. rewrite lookup_insert_is_Some. cbn [In].
  destruct (decide (k' = k)); tauto.
Qed.

(** C1 (as the code has it).  The reconstruction is the single
    left-to-right fold of the specification, the element of [stats] being
    consulted when a session part is given and is not 0: no driver gives
    the empty map; the map holds the entries of the fold, one per driver;
    and, racing numbers being distinct, the first driver maps to exactly 0
    and every later driver to [max(0, direct)], or to
    [max(0, previous final gap + interval)] when no direct candidate
    parses.  For three drivers, the second with [gapToLeader = "+1.0"] and
    the third with only [intervalToPositionAhead.value = "+0.5"], the third
    resolves to 1.5. *)
Theorem computeGapsSeconds_is_fold
    (ordered : list TimingDataDriver) (sessionPart : option Z) :
  computeGapsSeconds [] sessionPart = ∅ /\
  computeGapsSeconds ordered sessionPart
    = gapMapOf (reconstruct statOfPart sessionPart ordered) /\
  (forall d, statOfPart d sessionPart
             = match sessionPart with
               | Some 0%Z => None
               | _ => statWhenGiven d sessionPart
               end) /\
  (forall k, is_Some (computeGapsSeconds ordered sessionPart !! k)
             <-> In k (map racingNumber ordered)) /\
  (List.NoDup (map racingNumber ordered) ->
     (forall first rest, ordered = first :: rest ->
        computeGapsSeconds ordered sessionPart !! racingNumber first = Some 0) /\
     (forall i prev d,
        ordered !! i = Some prev -> ordered !! S i = Some d ->
        exists g,
          computeGapsSeconds ordered sessionPart !! racingNumber prev = Some g /\
          computeGapsSeconds ordered sessionPart !! racingNumber d
            = Some (specGap statOfPart sessionPart g d))) /\
  (forall d1 d2 d3,
     gapToLeader d2 = Some "+1.0"%string ->
     gapToLeader d3 = None -> stats d3 = None -> timeDiffToFastest d3 = None ->
     intervalToPositionAhead d3
       = Some {| interval_value := Some "+0.5"%string |} ->
     exists g,
       computeGapsSeconds [d1; d2; d3] sessionPart !! racingNumber d3 = Some g /\
       g == 1.5).
Proof.
  split; [done|]. split; [apply computeGapsSeconds_fold|].
  split; [intros d; apply statOfPart_given|].
  split; [|split].
  - intros k. rewrite computeGapsSeconds_fold. unfold gapMapOf.
    rewrite fold_insert_dom, reconstruct_keys, lookup_empty.
    split; [intros [?|[? ?]]; done|by left].
  - intros Hnd. rewrite computeGapsSeconds_fold.
    rewrite <- (reconstruct_keys sessionPart) in Hnd. split.
    + intros first rest ->.
      by apply (fold_insert_lookup _ ∅ 0%nat (racingNumber first) 0 Hnd).
    + intros i prev d Hprev Hd.
      destruct ordered as [|first rest]; [done|].
      destruct (specFold_chain sessionPart rest first 0 i prev d Hprev Hd)
        as (g & Ei & ESi).
      exists g. split.
      * by apply (fold_insert_lookup _ ∅ i _ _ Hnd).
      * by apply (fold_insert_lookup _ ∅ (S i) _ _ Hnd).
  - intros d1 d2 d3 H2 H3 Hst Hf Hi.
    rewrite computeGapsSeconds_fold. unfold gapMapOf, reconstruct.
    cbn [specFold fold_left fst snd]. rewrite lookup_insert_eq.
    eexists. split; [done|].
    unfold specGap at 1, specDirect, specInterval, statOfPart.
    rewrite H3, Hst, Hf, Hi. cbn [firstParsed mbind option_bind interval_value].
    change (parseSeconds None) with (@None Q). cbn match.
    unfold specGap, specDirect. rewrite H2. cbn [firstParsed].
    vm_compute. reflexivity.
Qed.

(** C1 as stated fails for a session part of 0: the code does not consult
    [stats] then, and the driver resolves to 0 instead of 1. *)
Lemma sessionPart_zero_counterexample :
  computeGapsSeconds qualifyingField (Some 0%Z) !! "44"%string = Some 0 /\
  (exists g,
     gapMapOf (reconstruct statWhenGiven (Some 0%Z) qualifyingField)
       !! "44"%string = Some g /\ g == 1) /\
  computeGapsSeconds qualifyingField (Some 0%Z)
  <> gapMapOf (reconstruct statWhenGiven (Some 0%Z) qualifyingField).
Proof.
  assert (H1 : computeGapsSeconds qualifyingField (Some 0%Z) !! "44"%string
               = Some 0) by (vm_compute; reflexivity).
  assert (H2 : gapMapOf (reconstruct statWhenGiven (Some 0%Z) qualifyingField)
                 !! "44"%string = Some 1.000) by (vm_compute; reflexivity).
  split; [exact H1|]. split.
  - eexists. split; [exact H2|]. reflexivity.
  - intros E. rewrite E, H2 in H1. discriminate.
Qed.

(** The three-driver field of the specification. *)
Lemma computeGapsSeconds_is_fold_witness :
  computeGapsSeconds threeDrivers None !! "1"%string = Some 0 /\
  exists g,
    computeGapsSeconds threeDrivers None !! "16"%string = Some g /\ g == 1.5.
Proof.
  destruct (computeGapsSeconds_is_fold threeDrivers None)
    as (_ & _ & _ & _ & Hdistinct & Hthree).
  assert (Hnd : List.NoDup (map racingNumber threeDrivers)).
  { repeat constructor; cbn; intuition discriminate. }
  split.
  - apply (proj1 (Hdistinct Hnd) _ _ eq_refl).
  - apply (Hthree (mkDriver "1" (Some "+9.9"%string) (Some "+9.9"%string))
                  (mkDriver "44" (Some "+1.0"%string) None)
                  (mkDriver "16" None (Some "+0.5"%string)));
      reflexivity.
Defined.

(** Racing numbers identify the drivers: were two drivers to carry the same
    one, the entry of the later would replace that of the earlier. *)
Example shared_number_overwrites :
  exists g,
    computeGapsSeconds
      [ mkDriver "1" None None; mkDriver "1" (Some "+1.0"%string) None ] None
      !! "1"%string = Some g /\ g == 1.
Proof. eexists. split; [vm_compute; reflexivity|reflexivity]. Qed.

(* ===================================================================== *)
(** ** The Vertical mapper *)
(* ===================================================================== *)

Section VerticalFacts.
Variable settings : Settings.
Variable ordered : list TimingDataDriver.
Variable sessionPart : option Z.

Abbreviation mapGapToUnit := (Vertical.mapGapToUnit settings ordered sessionPart).
Abbreviation unitOf := (Vertical.unitOf settings ordered sessionPart).
Abbreviation G1 := (Vertical.G1 settings).
Abbreviation G2 := (Vertical.G2 settings).
Abbreviation linearBase := (Vertical.linearBase settings ordered sessionPart).
Abbreviation stretchFactor := (Vertical.stretchFactor settings ordered sessionPart).
Abbreviation piecewiseStretch := (Vertical.piecewiseStretch settings ordered sessionPart).

Lemma mapGapToUnit_range g : 0 <= mapGapToUnit g <= 1.
Proof.
  pose proof (effG1_lower settings) as H1.
  pose proof (effG2_lower settings) as H2.
  pose proof (linearBase_lower settings ordered sessionPart) as HB.
  unfold Vertical.mapGapToUnit, Vertical.G1, Vertical.G2, Number_isFinite.
  cbn [negb orb].
  destruct (inv_pos_facts (effG1 settings)) as [K1 E1]; [lra|].
  destruct (inv_pos_facts (effG2 settings - effG1 settings)) as [K2 E2]; [lra|].
  destruct (inv_pos_facts linearBase) as [K3 E3]; [lra|].
  unfold Qdiv.
  destruct (Vertical.scaleType settings); qcases; qminmax; nra.
Qed.

Lemma mapGapToUnit_mono a b : a <= b -> mapGapToUnit a <= mapGapToUnit b.
Proof.
  intros Hab.
  pose proof (effG1_lower settings) as H1.
  pose proof (effG2_lower settings) as H2.
  pose proof (linearBase_lower settings ordered sessionPart) as HB.
  unfold Vertical.mapGapToUnit, Vertical.G1, Vertical.G2, Number_isFinite.
  cbn [negb orb].
  destruct (inv_pos_facts (effG1 settings)) as [K1 E1]; [lra|].
  destruct (inv_pos_facts (effG2 settings - effG1 settings)) as [K2 E2]; [lra|].
  destruct (inv_pos_facts linearBase) as [K3 E3]; [lra|].
  unfold Qdiv.
  destruct (Vertical.scaleType settings); qcases; qminmax; nra.
Qed.

(** The stretch never shrinks a unit. *)
Lemma piecewiseStretch_lower : 1 <= piecewiseStretch.
Proof.
  unfold Vertical.piecewiseStretch.
  destruct (Vertical.scaleType settings); try lra. cbv zeta.
  match goal with |- context [Vertical.mapGapToUnit _ _ _ ?g] =>
    pose proof (mapGapToUnit_range g) as Hr;
    generalize dependent (mapGapToUnit g)
  end.
  intros u Hr.
  destruct (Qle_bool u 0) eqn:Eu; [cbn; lra|].
  destruct (Qle_bool 1 u) eqn:Eu1; [cbn; lra|]. cbn [orb].
  qbool. destruct (inv_pos_facts u) as [K E]; [lra|].
  unfold Qdiv. nra.
Qed.

Lemma stretchFactor_lower : 1 <= stretchFactor.
Proof.
  unfold Vertical.stretchFactor.
  destruct (Vertical.scaleType settings); try lra.
  apply piecewiseStretch_lower.
Qed.
End VerticalFacts.

Section VerticalTheorems.
Variable settings : Settings.
Variable ordered : list TimingDataDriver.
Variable sessionPart : option Z.

Abbreviation mapGapToUnit := (Vertical.mapGapToUnit settings ordered sessionPart).
Abbreviation mapGapToUnitChecked := (Vertical.mapGapToUnitChecked settings ordered sessionPart).
Abbreviation unitOf := (Vertical.unitOf settings ordered sessionPart).
Abbreviation G1 := (Vertical.G1 settings).
Abbreviation G2 := (Vertical.G2 settings).
Abbreviation linearBase := (Vertical.linearBase settings ordered sessionPart).
Abbreviation stretchFactor := (Vertical.stretchFactor settings ordered sessionPart).
Abbreviation piecewiseStretch := (Vertical.piecewiseStretch settings ordered sessionPart).
Abbreviation dots := (Vertical.dots settings ordered sessionPart).
Abbreviation scaleType := (Vertical.scaleType settings).

Lemma divide_nonzero a b : ~ b == 0 -> divide a b = Some (a / b).
Proof.
  intros H. unfold divide. destruct (Qeq_bool b 0) eqn:E; [|done].
  apply Qeq_bool_iff in E. contradiction.
Qed.


Lemma in_dots dot :
  In dot dots <->
  exists d, In d (Vertical.visible settings ordered) /\
    dot = {| Vertical.y := unitOf (Vertical.gapOf ordered sessionPart d);
             Vertical.dotRacingNumber := racingNumber d;
             Vertical.gap := Vertical.gapOf ordered sessionPart d;
             Vertical.overMax :=
               Qgtb (Vertical.gapOf ordered sessionPart d)
                    (Vertical.baseSec settings ordered sessionPart) |}.
Proof.
  unfold Vertical.dots. rewrite in_map_iff. split.
  - intros (d & <- & Hd). eauto.
  - intros (d & Hd & ->). eauto.
Qed.

Lemma dot_y dot : In dot dots -> Vertical.y dot = unitOf (Vertical.gap dot).
Proof. rewrite in_dots. intros (d & _ & ->). done. Qed.

Lemma dot_overMax dot :
  In dot dots ->
  Vertical.overMax dot
  = Qgtb (Vertical.gap dot) (Vertical.baseSec settings ordered sessionPart).
Proof. rewrite in_dots. intros (d & _ & ->). done. Qed.

(** C3.  In piecewise mode the mapper is the two-segment map over the
    effective thresholds: [(gap/G1) * 0.7] on [(0, G1]],
    [0.7 + ((gap-G1)/(G2-G1)) * 0.3] on [(G1, G2]] and [1] beyond [G2]; a dot
    is flagged [overMax] exactly when its gap exceeds [G2].  With [G1 = 3]
    and [G2 = 15] the gaps 3, 15 and 20 map to 0.7, 1 and 1, the last one
    with [overMax] set. *)
Theorem piecewise_segments :
  scaleType = piecewise ->
  (forall gap, 0 < gap -> gap <= G1 -> mapGapToUnit gap = (gap / G1) * 0.7) /\
  (forall gap, G1 < gap -> gap <= G2 ->
     mapGapToUnit gap = 0.7 + ((gap - G1) / (G2 - G1)) * 0.3) /\
  (forall gap, G2 < gap -> mapGapToUnit gap = 1) /\
  (forall dot, In dot dots ->
     (Vertical.overMax dot = true <-> G2 < Vertical.gap dot)) /\
  (G1 == 3 -> G2 == 15 ->
     mapGapToUnit 3 == 0.7 /\ mapGapToUnit 15 == 1 /\ mapGapToUnit 20 == 1 /\
     forall dot, In dot dots -> Vertical.gap dot == 20 ->
       Vertical.overMax dot = true /\ Vertical.y dot == 1).
Proof.
  intros Hmode.
  pose proof (effG1_lower settings) as H1.
  pose proof (effG2_lower settings) as H2.
  assert (Hlow : forall gap, 0 < gap -> gap <= G1 ->
                   mapGapToUnit gap = (gap / G1) * 0.7).
  { intros gap Hpos Hle. unfold Vertical.mapGapToUnit. rewrite Hmode.
    cbn [Number_isFinite negb orb].
    apply Qle_bool_false in Hpos. apply Qle_bool_iff in Hle.
    by rewrite Hpos, Hle. }
  assert (Hmid : forall gap, G1 < gap -> gap <= G2 ->
                   mapGapToUnit gap = 0.7 + ((gap - G1) / (G2 - G1)) * 0.3).
  { intros gap Hgt Hle. unfold Vertical.mapGapToUnit. rewrite Hmode.
    cbn [Number_isFinite negb orb].
    assert (Hpos : 0 < gap) by (unfold Vertical.G1 in Hgt; lra).
    apply Qle_bool_false in Hpos, Hgt. apply Qle_bool_iff in Hle.
    by rewrite Hpos, Hgt, Hle. }
  assert (Hhigh : forall gap, G2 < gap -> mapGapToUnit gap = 1).
  { intros gap Hgt. unfold Vertical.mapGapToUnit. rewrite Hmode.
    cbn [Number_isFinite negb orb].
    assert (Hpos : 0 < gap) by (unfold Vertical.G2 in Hgt; lra).
    assert (Hgt1 : G1 < gap) by (unfold Vertical.G1, Vertical.G2 in *; lra).
    apply Qle_bool_false in Hpos, Hgt, Hgt1.
    by rewrite Hpos, Hgt1, Hgt. }
  assert (Hover : forall dot, In dot dots ->
                    (Vertical.overMax dot = true <-> G2 < Vertical.gap dot)).
  { intros dot Hdot. rewrite (dot_overMax dot Hdot).
    unfold Vertical.baseSec. rewrite Hmode. apply Qgtb_true. }
  split; [exact Hlow|]. split; [exact Hmid|]. split; [exact Hhigh|].
  split; [exact Hover|].
  intros E1 E2.
  split; [|split; [|split; [|intros dot Hdot Hg; split]]].
  - rewrite Hlow by lra. rewrite E1. reflexivity.
  - rewrite Hmid by lra. rewrite E1, E2. reflexivity.
  - rewrite Hhigh by lra. reflexivity.
  - apply Hover; [done|]. lra.
  - rewrite (dot_y dot) by done. unfold Vertical.unitOf.
    assert (Hg2 : G2 < Vertical.gap dot) by lra.
    rewrite (Hhigh _ Hg2).
    pose proof (stretchFactor_lower settings ordered sessionPart) as Hs.
    qminmax; lra.
Qed.
End VerticalTheorems.

(** The inverted pair [G1 = 20], [G2 = 5] becomes 5 and 5.5. *)
Example inverted_thresholds :
  effG1 invertedSettings == 5 /\ effG2 invertedSettings == 5.5.
Proof. split; reflexivity. Qed.

(** The default thresholds, with a driver twenty seconds behind. *)
Lemma piecewise_segments_witness :
  Vertical.mapGapToUnit defaultSettings farField None 3 == 0.7 /\
  Vertical.mapGapToUnit defaultSettings farField None 15 == 1 /\
  Vertical.mapGapToUnit defaultSettings farField None 20 == 1 /\
  exists dot,
    In dot (Vertical.dots defaultSettings farField None) /\
    Vertical.gap dot == 20 /\
    Vertical.overMax dot = true /\ Vertical.y dot == 1.
Proof.
  destruct (piecewise_segments defaultSettings farField None eq_refl)
    as (_ & _ & _ & _ & H).
  destruct (H ltac:(reflexivity) ltac:(reflexivity)) as (H3 & H15 & H20 & Hdot).
  split; [exact H3|]. split; [exact H15|]. split; [exact H20|].
  eexists. split; [right; left; reflexivity|].
  split; [vm_compute; reflexivity|].
  apply Hdot; [right; left; reflexivity|vm_compute; reflexivity].
Defined.

(* ===================================================================== *)
(** ** The final coordinate is monotone *)
(* ===================================================================== *)

Section Stretch.
Variable settings : Settings.
Variable ordered : list TimingDataDriver.
Variable sessionPart : option Z.

Abbreviation mapGapToUnit := (Vertical.mapGapToUnit settings ordered sessionPart).
Abbreviation unitOf := (Vertical.unitOf settings ordered sessionPart).
Abbreviation stretchFactor := (Vertical.stretchFactor settings ordered sessionPart).
Abbreviation piecewiseStretch := (Vertical.piecewiseStretch settings ordered sessionPart).
Abbreviation dots := (Vertical.dots settings ordered sessionPart).
Abbreviation scaleType := (Vertical.scaleType settings).
Abbreviation visible := (Vertical.visible settings ordered).
Abbreviation gapOf := (Vertical.gapOf ordered sessionPart).

End Stretch.


(* ===================================================================== *)
(** ** The stretch factor *)
(* ===================================================================== *)

Section StretchTheorem.
Variable settings : Settings.
Variable ordered : list TimingDataDriver.
Variable sessionPart : option Z.

Abbreviation mapGapToUnit := (Vertical.mapGapToUnit settings ordered sessionPart).
Abbreviation unitOf := (Vertical.unitOf settings ordered sessionPart).
Abbreviation stretchFactor := (Vertical.stretchFactor settings ordered sessionPart).
Abbreviation piecewiseStretch := (Vertical.piecewiseStretch settings ordered sessionPart).
Abbreviation dots := (Vertical.dots settings ordered sessionPart).
Abbreviation scaleType := (Vertical.scaleType settings).
Abbreviation visible := (Vertical.visible settings ordered).
Abbreviation gapOf := (Vertical.gapOf ordered sessionPart).
Abbreviation maxGap := (Math_max (map gapOf visible ++ [0])).
Abbreviation m := (maxRawUnit settings ordered sessionPart).

Lemma mapGapToUnit_zero : mapGapToUnit 0 = 0.
Proof. reflexivity. Qed.

(** The unit of the largest visible gap is the largest visible unit. *)
Lemma maxRawUnit_of_maxGap : m == mapGapToUnit maxGap.
Proof.
  apply Qle_antisym.
  - apply fold_right_Qmax_lub; [apply mapGapToUnit_range|].
    intros v (d & <- & Hd)%in_map_iff.
    apply mapGapToUnit_mono, Math_max_upper, in_or_app. left.
    apply in_map_iff. eauto.
  - assert (Hin : In maxGap (map gapOf visible ++ [0])).
    { apply Math_max_in. by destruct (map gapOf visible). }
    apply in_app_or in Hin as [(d & E & Hd)%in_map_iff|[E|[]]].
    + apply fold_right_Qmax_upper, in_map_iff. exists d. by rewrite E.
    + rewrite <- E. rewrite mapGapToUnit_zero. apply fold_right_Qmax_lower.
Qed.

(** A dot that no other dot is behind carries the largest unit. *)
Lemma farthest_dot_unit dot :
  In dot dots ->
  (forall dot', In dot' dots -> Vertical.gap dot' <= Vertical.gap dot) ->
  mapGapToUnit (Vertical.gap dot) == m.
Proof.
  intros Hdot Hfar. apply Qle_antisym.
  - apply in_dots in Hdot as (d & Hd & ->). cbn.
    apply fold_right_Qmax_upper, in_map_iff. eauto.
  - apply fold_right_Qmax_lub; [apply mapGapToUnit_range|].
    intros v (d & <- & Hd)%in_map_iff.
    apply mapGapToUnit_mono.
    apply (Hfar {| Vertical.y := unitOf (gapOf d);
                   Vertical.dotRacingNumber := racingNumber d;
                   Vertical.gap := gapOf d;
                   Vertical.overMax :=
                     Qgtb (gapOf d) (Vertical.baseSec settings ordered sessionPart) |}).
    apply in_dots. eauto.
Qed.

Lemma piecewiseStretch_cases :
  scaleType = piecewise ->
  (0 < m -> m < 1 -> piecewiseStretch == 1 / m) /\
  (m == 0 \/ 1 <= m -> piecewiseStretch = 1).
Proof.
  intros Hmode. pose proof maxRawUnit_of_maxGap as Hm.
  unfold Vertical.piecewiseStretch. rewrite Hmode. cbv zeta.
  split.
  - intros H0 H1.
    destruct (Qle_bool (mapGapToUnit maxGap) 0) eqn:E0; qbool; [lra|].
    destruct (Qle_bool 1 (mapGapToUnit maxGap)) eqn:E1; qbool; [lra|].
    cbn [orb]. by rewrite Hm.
  - intros H.
    destruct (Qle_bool (mapGapToUnit maxGap) 0) eqn:E0; qbool; [done|].
    destruct (Qle_bool 1 (mapGapToUnit maxGap)) eqn:E1; qbool; [done|].
    lra.
Qed.

End StretchTheorem.


(* ===================================================================== *)
(** ** Fixed mode *)
(* ===================================================================== *)

Section LinearModes.
Variable settings : Settings.
Variable ordered : list TimingDataDriver.
Variable sessionPart : option Z.

Abbreviation mapGapToUnit := (Vertical.mapGapToUnit settings ordered sessionPart).
Abbreviation mapGapToAngle := (Circle.mapGapToAngle settings ordered sessionPart).
Abbreviation scaleType := (Vertical.scaleType settings).
Abbreviation fixedSec := (Vertical.fixedSec settings).
Abbreviation visible := (Vertical.visible settings ordered).
Abbreviation gapOf := (Vertical.gapOf ordered sessionPart).
Abbreviation spreadSeconds := (Vertical.spreadSeconds settings ordered sessionPart).
Abbreviation isMax := (isMaxVisibleGap settings ordered sessionPart).

Lemma mapGapToUnit_linear gap :
  scaleType <> piecewise -> 0 < gap ->
  mapGapToUnit gap
  = Qmin 1 (gap / Vertical.linearBase settings ordered sessionPart).
Proof.
  intros Hmode Hpos. unfold Vertical.mapGapToUnit.
  cbn [Number_isFinite negb orb].
  apply Qle_bool_false in Hpos. rewrite Hpos.
  by destruct (Vertical.scaleType settings).
Qed.

Lemma mapGapToAngle_linear gap :
  scaleType <> piecewise -> 0 < gap ->
  mapGapToAngle gap
  = Qmin 360 ((gap / Circle.linearBase settings ordered sessionPart) * 360).
Proof.
  intros Hmode Hpos. unfold Circle.mapGapToAngle.
  cbn [Number_isFinite negb orb].
  apply Qle_bool_false in Hpos. rewrite Hpos.
  change (Circle.scaleType settings) with (Vertical.scaleType settings).
  by destruct (Vertical.scaleType settings).
Qed.

(** C6 (as the code has it).  In fixed mode, for every gap > 0 the mapper
    returns [min(1, gap / max(1, f))] where [f] is the configured
    [fixedSeconds], replaced by the default 30 when it is 0: for a non-zero
    value the denominator is [max(1, fixedSeconds)] and floors at 1 for a
    negative one, for the value 0 it is 30.  So [gapToUnit(10)] is 1/3 with
    [fixedSeconds = 30] and also with [fixedSeconds = 0]. *)
Theorem fixed_mode_mapping :
  scaleType = fixed ->
  (forall gap, 0 < gap ->
     mapGapToUnit gap = Qmin 1 (gap / Qmax 1 (orDefault fixedSec 30))) /\
  (~ fixedSec == 0 ->
     forall gap, 0 < gap -> mapGapToUnit gap = Qmin 1 (gap / Qmax 1 fixedSec)) /\
  (fixedSec < 0 -> forall gap, 0 < gap -> mapGapToUnit gap == Qmin 1 gap) /\
  (fixedSec == 0 -> forall gap, 0 < gap -> mapGapToUnit gap == Qmin 1 (gap / 30)) /\
  (fixedSec == 30 -> mapGapToUnit 10 == 1 / 3) /\
  (fixedSec == 0 -> mapGapToUnit 10 == 1 / 3).
Proof.
  intros Hmode.
  assert (Hgen : forall gap, 0 < gap ->
            mapGapToUnit gap = Qmin 1 (gap / Qmax 1 (orDefault fixedSec 30))).
  { intros gap Hpos. rewrite mapGapToUnit_linear by (done || congruence).
    unfold Vertical.linearBase. by rewrite Hmode. }
  assert (Hzero : fixedSec == 0 -> forall gap, 0 < gap ->
            mapGapToUnit gap == Qmin 1 (gap / 30)).
  { intros Hz gap Hpos. rewrite (Hgen gap Hpos), (orDefault_zero _ _ Hz).
    reflexivity. }
  split; [exact Hgen|]. split; [|split; [|split; [exact Hzero|split]]].
  - intros Hnz gap Hpos. by rewrite (Hgen gap Hpos), orDefault_nonzero.
  - intros Hneg gap Hpos. rewrite (Hgen gap Hpos), orDefault_nonzero by lra.
    assert (E : Qmax 1 fixedSec == 1) by (apply Q.max_l; lra).
    assert (E1 : gap / 1 == gap) by (field).
    by rewrite E, E1.
  - intros H30. rewrite Hgen by lra. rewrite orDefault_nonzero by lra.
    rewrite H30. reflexivity.
  - intros Hz. rewrite (Hzero Hz) by lra. reflexivity.
Qed.
End LinearModes.

(** C6 as stated fails for a configured value of 0: the denominator is
    then 30, not [max(1, 0) = 1]. *)
Lemma fixed_zero_counterexample :
  ~ (Vertical.mapGapToUnit fixedZeroSettings [] None 10
     == Qmin 1 (10 / Qmax 1 (circleFixedSeconds fixedZeroSettings))).
Proof. vm_compute. discriminate. Qed.


(** A configured value of 0 divides by 30. *)
Lemma fixed_mode_mapping_witness :
  Vertical.mapGapToUnit fixedZeroSettings [] None 10 == 1 / 3.
Proof.
  destruct (fixed_mode_mapping fixedZeroSettings [] None eq_refl)
    as (_ & _ & _ & _ & _ & H).
  apply H. reflexivity.
Defined.

(* ===================================================================== *)
(** ** Spread mode *)
(* ===================================================================== *)

Section SpreadMode.
Variable settings : Settings.
Variable ordered : list TimingDataDriver.
Variable sessionPart : option Z.

Abbreviation mapGapToUnit := (Vertical.mapGapToUnit settings ordered sessionPart).
Abbreviation mapGapToAngle := (Circle.mapGapToAngle settings ordered sessionPart).
Abbreviation scaleType := (Vertical.scaleType settings).
Abbreviation visible := (Vertical.visible settings ordered).
Abbreviation gapOf := (Vertical.gapOf ordered sessionPart).
Abbreviation spreadSeconds := (Vertical.spreadSeconds settings ordered sessionPart).
Abbreviation isMax := (isMaxVisibleGap settings ordered sessionPart).

Lemma spreadSeconds_isMax : isMax spreadSeconds.
Proof.
  unfold isMaxVisibleGap, Vertical.spreadSeconds. cbv zeta.
  rewrite filter_isFinite.
  destruct (Vertical.visible settings ordered) as [|d0 ds] eqn:Ev.
  { split; [done|]. right. done. }
  set (vs := map gapOf (d0 :: ds)).
  change (match vs with [] => 0 | _ :: _ => Math_max vs end) with (Math_max vs).
  split.
  - intros d Hd. apply Math_max_upper, in_map_iff. eauto.
  - left. assert (Hin : In (Math_max vs) vs) by (by apply Math_max_in).
    apply in_map_iff in Hin as (d & E & Hd). exists d. by rewrite E.
Qed.

Lemma isMax_unique M M' : isMax M -> isMax M' -> M == M'.
Proof.
  intros [Hub [(d & Hd & E)|[Hnil E]]] [Hub' [(d' & Hd' & E')|[Hnil' E']]].
  - pose proof (Hub d' Hd'). pose proof (Hub' d Hd). lra.
  - rewrite Hnil' in Hd. destruct Hd.
  - rewrite Hnil in Hd'. destruct Hd'.
  - lra.
Qed.

Lemma vertical_spread_base M :
  scaleType = spread -> isMax M ->
  Vertical.linearBase settings ordered sessionPart == Qmax 1 M.
Proof.
  intros Hmode HM.
  pose proof (isMax_unique _ _ spreadSeconds_isMax HM) as E.
  unfold Vertical.linearBase. rewrite Hmode. unfold orDefault.
  destruct (Qeq_bool spreadSeconds 0) eqn:E0; qbool.
  - rewrite <- E, E0. reflexivity.
  - by rewrite E.
Qed.

Lemma circle_spread_base M :
  scaleType = spread -> isMax M ->
  (0 < M -> Circle.linearBase settings ordered sessionPart == M) /\
  (M <= 0 -> Circle.linearBase settings ordered sessionPart
             = orDefault (Circle.lapSeconds ordered) 90).
Proof.
  intros Hmode HM.
  pose proof (isMax_unique _ _ spreadSeconds_isMax HM) as E.
  unfold Circle.linearBase.
  change (Circle.scaleType settings) with scaleType. rewrite Hmode.
  unfold Circle.spreadSeconds. cbv zeta.
  change (match List.filter Number_isFinite
                  (map (Circle.gapOf ordered sessionPart)
                       (Circle.visible settings ordered)) with
          | [] => 0
          | _ :: _ => Math_max (List.filter Number_isFinite
                        (map (Circle.gapOf ordered sessionPart)
                             (Circle.visible settings ordered)))
          end) with spreadSeconds.
  unfold Qgtb.
  destruct (Qle_bool spreadSeconds 0) eqn:E0; qbool; cbn [negb];
    split; intros; (done || lra).
Qed.

(** The units of the two components in spread mode. *)
Lemma spread_units M :
  scaleType = spread -> isMax M ->
  (forall gap, 0 < gap -> mapGapToUnit gap == Qmin 1 (gap / Qmax 1 M)) /\
  (0 < M -> forall gap, 0 < gap ->
     mapGapToAngle gap / 360 == Qmin 1 (gap / M)).
Proof.
  intros Hmode HM.
  pose proof (vertical_spread_base M Hmode HM) as HV.
  destruct (circle_spread_base M Hmode HM) as [HC1 _].
  assert (Hne : scaleType <> piecewise) by congruence.
  split.
  - intros gap Hpos. rewrite mapGapToUnit_linear by done. by rewrite HV.
  - intros HM0 gap Hpos. rewrite mapGapToAngle_linear by done.
    rewrite Qmin_scale. by rewrite (HC1 HM0).
Qed.

End SpreadMode.

Lemma closeField_isMax : isMaxVisibleGap spreadSettings closeField None 0.5.
Proof.
  split.
  - intros d [<-|[<-|[]]]; vm_compute; discriminate.
  - left. exists (mkDriver "44" (Some "+0.5"%string) None). split.
    + right. by left.
    + vm_compute. reflexivity.
Qed.




(* ===================================================================== *)
(** ** The two visualizations *)
(* ===================================================================== *)

Section TwoVisualizations.
Variable settings : Settings.
Variable ordered : list TimingDataDriver.
Variable sessionPart : option Z.

Abbreviation mapGapToUnit := (Vertical.mapGapToUnit settings ordered sessionPart).
Abbreviation mapGapToAngle := (Circle.mapGapToAngle settings ordered sessionPart).
Abbreviation scaleType := (Vertical.scaleType settings).
Abbreviation isMax := (isMaxVisibleGap settings ordered sessionPart).
Abbreviation G1 := (Vertical.G1 settings).
Abbreviation G2 := (Vertical.G2 settings).

Lemma both_zero gap :
  gap <= 0 -> mapGapToUnit gap = 0 /\ mapGapToAngle gap = 0.
Proof.
  intros H. apply Qle_bool_iff in H.
  unfold Vertical.mapGapToUnit, Circle.mapGapToAngle.
  cbn [Number_isFinite negb orb]. by rewrite H.
Qed.

Lemma piecewise_agreement gap :
  scaleType = piecewise ->
  (mapGapToUnit gap == mapGapToAngle gap / 360 <-> gap <= 0 \/ G2 <= gap).
Proof.
  intros Hmode.
  pose proof (effG1_lower settings) as H1.
  pose proof (effG2_lower settings) as H2.
  destruct (inv_pos_facts (effG1 settings)) as [K1 E1]; [lra|].
  destruct (inv_pos_facts (effG2 settings - effG1 settings)) as [K2 E2]; [lra|].
  unfold Vertical.mapGapToUnit, Circle.mapGapToAngle.
  change (Circle.scaleType settings) with scaleType. rewrite Hmode.
  unfold Circle.G1, Circle.G2, Vertical.G1, Vertical.G2.
  cbn [Number_isFinite negb orb].
  rewrite Qdiv_360. unfold Qdiv.
  set (k1 := / effG1 settings) in *.
  set (k2 := / (effG2 settings - effG1 settings)) in *.
  destruct (Qle_bool gap 0) eqn:C0; qbool.
  { split; [by left|intros _; lra]. }
  destruct (Qle_bool gap (effG1 settings)) eqn:C1; qbool.
  { assert (0 < gap * k1) by nra.
    split; [intros E; lra|intros [?|?]; lra]. }
  destruct (Qle_bool gap (effG2 settings)) eqn:C2; qbool.
  - split.
    + intros E. right.
      assert (Ht : (gap - effG1 settings) * k2 == 1) by lra.
      nra.
    + intros [?|Hge]; [lra|].
      assert (Ht : (gap - effG1 settings) * k2 == 1) by nra.
      lra.
  - split; [intros _; right; lra|intros _; lra].
Qed.

End TwoVisualizations.



(* ===================================================================== *)
(** ** The visible set *)
(* ===================================================================== *)

(** C10.  A cutoff of 0 (the store default) or a negative one shows the
    whole ordered list; a positive cutoff shows exactly the first
    [min(topN, length)] drivers, in rank order.  Both components use the
    same selection. *)
Theorem visible_topN (settings : Settings) (ordered : list TimingDataDriver) :
  Circle.visible settings ordered = Vertical.visible settings ordered /\
  ((circleTopN settings <= 0)%Z -> Vertical.visible settings ordered = ordered) /\
  ((0 < circleTopN settings)%Z ->
     Vertical.visible settings ordered
     = firstn (Z.to_nat (Z.min (circleTopN settings)
                               (Z.of_nat (length ordered)))) ordered /\
     length (Vertical.visible settings ordered)
     = Z.to_nat (Z.min (circleTopN settings) (Z.of_nat (length ordered))) /\
     exists hidden, ordered = Vertical.visible settings ordered ++ hidden) /\
  Vertical.visible defaultSettings ordered = ordered.
Proof.
  assert (Hall : forall s, (circleTopN s <= 0)%Z ->
                   Vertical.visible s ordered = ordered).
  { intros s Hle. unfold Vertical.visible, sliceTopN.
    assert (E : (negb (circleTopN s =? 0) && (0 <? circleTopN s))%Z = false).
    { apply andb_false_iff. right. apply Z.ltb_ge. lia. }
    rewrite E, Nat2Z.id. apply firstn_all. }
  split; [done|]. split; [apply Hall|]. split; [|by apply Hall].
  intros Hpos. unfold Vertical.visible, sliceTopN.
  assert (E : (negb (circleTopN settings =? 0) && (0 <? circleTopN settings))%Z
              = true).
  { apply andb_true_iff. split; [apply negb_true_iff, Z.eqb_neq|apply Z.ltb_lt]; lia. }
  rewrite E. split; [done|]. split.
  - rewrite length_take. lia.
  - eexists. symmetry. apply firstn_skipn.
Qed.


(** A cutoff of 2, and the default cutoff, on three drivers. *)
Lemma visible_topN_witness :
  Vertical.visible topTwoSettings threeDrivers = firstn 2 threeDrivers /\
  Vertical.visible defaultSettings threeDrivers = threeDrivers.
Proof.
  destruct (visible_topN topTwoSettings threeDrivers) as (_ & _ & Hpos & _).
  destruct (visible_topN defaultSettings threeDrivers) as (_ & Hall & _).
  split; [apply Hpos|apply Hall]; cbn; lia.
Defined.

(* ===================================================================== *)
(** ** More on the parsers *)
(* ===================================================================== *)

Lemma trimStart_app_ws ws s : allWhiteSpace ws -> trimStart (ws ++ s) = trimStart s.
Proof.
  induction 1 as [|c ws Hc _ IH]; [done|]. cbn. by rewrite Hc.
Qed.

Lemma trimStart_ws ws : allWhiteSpace ws -> trimStart ws = [].
Proof.
  intros H. rewrite <- (app_nil_r ws). by rewrite trimStart_app_ws.
Qed.

(** [trimStart] either consumes everything or stops at a visible character. *)
Lemma trimStart_cases s :
  (allWhiteSpace s /\ trimStart s = []) \/
  (exists c r, isWhiteSpace c = false /\ trimStart s = c :: r /\
               forall t, trimStart (s ++ t) = c :: r ++ t).
Proof.
  induction s as [|a s IH].
  - left. split; [constructor|done].
  - cbn. destruct (isWhiteSpace a) eqn:Ea.
    + destruct IH as [[Hws E]|(c & r & Hc & E & Happ)].
      * left. split; [by constructor|done].
      * right. exists c, r. done.
    + right. exists a, s. done.
Qed.

Lemma allWhiteSpace_rev ws : allWhiteSpace ws -> allWhiteSpace (rev ws).
Proof. apply List.Forall_rev. Qed.

Lemma trim_padding ws1 s ws2 :
  allWhiteSpace ws1 -> allWhiteSpace ws2 -> trim (ws1 ++ s ++ ws2) = trim s.
Proof.
  intros H1 H2. unfold trim. rewrite trimStart_app_ws by done.
  destruct (trimStart_cases s) as [[Hws E]|(c & r & Hc & E & Happ)].
  - rewrite E. rewrite (trimStart_ws (s ++ ws2)); [done|].
    apply Forall_app. done.
  - rewrite Happ, E. change (c :: r ++ ws2) with ((c :: r) ++ ws2).
    rewrite rev_app_distr. rewrite trimStart_app_ws; [done|].
    by apply allWhiteSpace_rev.
Qed.

(** [parseSeconds] as a function of the trimmed text, the empty input
    included. *)
Lemma parseSeconds_body str :
  parseSeconds (Some str)
  = let s := trim (list_ascii_of_string str) in
    if lapsTest s then None
    else
      match s with
      | c :: v =>
          if (Ascii.eqb c "+" || Ascii.eqb c "-")%bool then
            let sign : Q := if Ascii.eqb c "-" then -1 else 1 in
            match matchHms v with
            | Some (m, sec, f) =>
                Some (sign * (inject_Z (parseInt m) * 60
                              + inject_Z (parseInt sec)
                              + inject_Z (millis f) / 1000))
            | None =>
                match matchSs v with
                | Some (sec, f) =>
                    Some (sign * (inject_Z (parseInt sec)
                                  + inject_Z (millis f) / 1000))
                | None => None
                end
            end
          else None
      | [] => None
      end.
Proof.
  destruct (decide (str = EmptyString)) as [->|Hne]; [done|].
  by apply parseSeconds_unfold.
Qed.

(** X1.  White space around the text never changes what [parseSeconds]
    returns: two inputs with the same trimmed text parse alike, so padding
    an input with white space on either side is harmless. *)
Theorem parseSeconds_ignores_padding :
  (forall a b,
     trim (list_ascii_of_string a) = trim (list_ascii_of_string b) ->
     parseSeconds (Some a) = parseSeconds (Some b)) /\
  (forall ws1 ws2 str,
     allWhiteSpace ws1 -> allWhiteSpace ws2 ->
     parseSeconds
       (Some (string_of_list_ascii (ws1 ++ list_ascii_of_string str ++ ws2)))
     = parseSeconds (Some str)).
Proof.
  assert (H : forall a b,
     trim (list_ascii_of_string a) = trim (list_ascii_of_string b) ->
     parseSeconds (Some a) = parseSeconds (Some b)).
  { intros a b E. rewrite !parseSeconds_body. cbv zeta. by rewrite E. }
  split; [exact H|].
  intros ws1 ws2 str H1 H2. apply H.
  rewrite list_ascii_of_string_of_list_ascii. by apply trim_padding.
Qed.

Lemma parseSeconds_ignores_padding_witness :
  parseSeconds (Some (string_of_list_ascii
     ([" "%char] ++ list_ascii_of_string "+1.5" ++ [" "; " "]%char)))
  = parseSeconds (Some "+1.5"%string).
Proof.
  apply (proj2 parseSeconds_ignores_padding);
    repeat constructor.
Defined.

Lemma trim_cons_visible c l :
  isWhiteSpace c = false -> trim (c :: l) = c :: rev (trimStart (rev l)).
Proof.
  intros Hc. unfold trim. cbn [trimStart rev]. rewrite Hc. cbn [rev].
  destruct (trimStart_cases (rev l)) as [[Hws E]|(c' & r & Hc' & E & Happ)].
  - rewrite trimStart_app_ws by done. cbn. by rewrite Hc, E.
  - rewrite Happ, E. change (c' :: r ++ [c]) with ((c' :: r) ++ [c]).
    by rewrite rev_app_distr.
Qed.

Lemma lapsTest_after_sign negative t :
  lapsTest (signChar negative :: t) = lapsTest t.
Proof. by destruct negative. Qed.

Lemma isL_of_digit c : isDigit c = true -> isL c = false.
Proof. destruct c as [[] [] [] [] [] [] [] []]; done. Qed.

Lemma noL_digits ds : allDigits ds -> Forall (fun c => isL c = false) ds.
Proof.
  intros H. eapply Forall_impl; [exact H|]. intros c. apply isL_of_digit.
Qed.

Lemma noL_shape v minutes seconds fraction :
  DeltaShape v minutes seconds fraction -> Forall (fun c => isL c = false) v.
Proof.
  intros (Hs & tail & Hf & Hrest).
  assert (Ht : Forall (fun c => isL c = false) tail).
  { destruct Hf as [|f Hd _]; [constructor|].
    constructor; [done|by apply noL_digits]. }
  destruct minutes as [m|].
  - destruct Hrest as (Hm & _ & _ & ->).
    apply Forall_app. split; [by apply noL_digits|].
    constructor; [done|]. apply Forall_app. split; [by apply noL_digits|done].
  - destruct Hrest as (_ & ->).
    apply Forall_app. split; [by apply noL_digits|done].
Qed.

Lemma LapsBehind_has_L s :
  LapsBehind s -> ~ Forall (fun c => isL c = false) s.
Proof.
  intros (before & ds & c & after & -> & _ & _ & Hl) H.
  apply Forall_app in H as [_ H]. apply Forall_app in H as [_ H].
  apply Forall_cons in H as [H _]. congruence.
Qed.

(** The laps-behind test never rejects a signed text that fits the
    grammar. *)
Lemma signed_shape_not_laps negative v :
  FitsGrammar v -> ~ LapsBehind (signChar negative :: v).
Proof.
  intros (m & s & f & Hshape) Hlaps.
  apply (LapsBehind_has_L _ Hlaps).
  constructor; [by destruct negative|]. by eapply noL_shape.
Qed.

(** X2.  [parseSeconds] accepts exactly the texts that, once trimmed, are a
    sign followed by [minutes:seconds[.fraction]] or [seconds[.fraction]]:
    the laps-behind test rejects nothing that the grammar would accept.
    Every accepted text has the value of its unique decomposition. *)
Theorem parseSeconds_accepts_exactly (str : string) :
  (is_Some (parseSeconds (Some str)) <->
   exists negative v,
     trim (list_ascii_of_string str) = signChar negative :: v /\
     FitsGrammar v) /\
  (forall negative v minutes seconds fraction,
     trim (list_ascii_of_string str) = signChar negative :: v ->
     DeltaShape v minutes seconds fraction ->
     exists q, parseSeconds (Some str) = Some q /\
               q == deltaValue negative minutes seconds fraction).
Proof.
  assert (Hval : forall negative v minutes seconds fraction,
     trim (list_ascii_of_string str) = signChar negative :: v ->
     DeltaShape v minutes seconds fraction ->
     exists q, parseSeconds (Some str) = Some q /\
               q == deltaValue negative minutes seconds fraction).
  { intros negative v minutes seconds fraction Et Hshape.
    apply (parseSeconds_value str negative v minutes seconds fraction Et);
      [|done].
    rewrite Et. apply signed_shape_not_laps. by exists minutes, seconds, fraction. }
  split; [|exact Hval]. split.
  - intros [q Hq]. rewrite parseSeconds_body in Hq. cbv zeta in Hq.
    destruct (lapsTest _); [done|].
    destruct (trim (list_ascii_of_string str)) as [|c v]; [done|].
    destruct (Ascii.eqb c "+" || Ascii.eqb c "-")%bool eqn:Es; [|done].
    destruct (sign_test_inv c Es) as [negative ->].
    exists negative, v. split; [done|].
    destruct (matchHms v) as [[[m sec] f]|] eqn:Eh.
    { exists (Some m), sec, f. by apply matchHms_iff. }
    destruct (matchSs v) as [[sec f]|] eqn:Ess; [|done].
    exists None, sec, f. by apply matchSs_iff.
  - intros (negative & v & Et & (m & s & f & Hshape)).
    destruct (Hval negative v m s f Et Hshape) as (q & -> & _). by eexists.
Qed.

Lemma parseSeconds_accepts_exactly_witness :
  exists q, parseSeconds (Some "-0.250"%string) = Some q /\
            q == deltaValue true None ["0"%char] (Some ["2"; "5"; "0"]%char).
Proof.
  apply (proj2 (parseSeconds_accepts_exactly "-0.250")
           true (list_ascii_of_string "0.250") None ["0"%char]
           (Some ["2"; "5"; "0"]%char)).
  - reflexivity.
  - split; [by repeat constructor|].
    exists ("."%char :: ["2"; "5"; "0"]%char). split.
    + constructor; [by repeat constructor|cbn; lia].
    + split; [cbn; lia|reflexivity].
Defined.

(** What [parseSeconds] does with a text that starts with a sign. *)
Lemma parseSeconds_signed negative (rest : string) :
  parseSeconds (Some (String (signChar negative) rest))
  = let v := rev (trimStart (rev (list_ascii_of_string rest))) in
    if lapsTest v then None
    else
      let sign : Q := if negative then -1 else 1 in
      match matchHms v with
      | Some (m, sec, f) =>
          Some (sign * (inject_Z (parseInt m) * 60
                        + inject_Z (parseInt sec)
                        + inject_Z (millis f) / 1000))
      | None =>
          match matchSs v with
          | Some (sec, f) =>
              Some (sign * (inject_Z (parseInt sec)
                            + inject_Z (millis f) / 1000))
          | None => None
          end
      end.
Proof.
  rewrite parseSeconds_body. cbv zeta.
  change (list_ascii_of_string (String (signChar negative) rest))
    with (signChar negative :: list_ascii_of_string rest).
  rewrite trim_cons_visible by (by destruct negative).
  rewrite lapsTest_after_sign.
  destruct (sign_test negative) as [-> ->]. done.
Qed.

(** X3.  The sign only sets the sign of the result: a text with a leading
    [-] is accepted exactly when the same text with a leading [+] is, and
    the two values are opposite. *)
Theorem parseSeconds_sign_symmetry (rest : string) :
  (parseSeconds (Some (String "-" rest)) = None <->
   parseSeconds (Some (String "+" rest)) = None) /\
  (forall a b,
     parseSeconds (Some (String "+" rest)) = Some a ->
     parseSeconds (Some (String "-" rest)) = Some b ->
     b == - a).
Proof.
  pose proof (parseSeconds_signed true rest) as Hn.
  pose proof (parseSeconds_signed false rest) as Hp.
  cbn [signChar] in Hn, Hp. rewrite Hn, Hp. cbv zeta.
  destruct (lapsTest _); [by split|].
  destruct (matchHms _) as [[[m sec] f]|].
  { split; [by split|]. intros a b [= <-] [= <-]. ring. }
  destruct (matchSs _) as [[sec f]|]; [|by split].
  split; [by split|]. intros a b [= <-] [= <-]. ring.
Qed.

Lemma parseSeconds_sign_symmetry_witness :
  exists a b,
    parseSeconds (Some "+1:02.500"%string) = Some a /\
    parseSeconds (Some "-1:02.500"%string) = Some b /\
    b == - a.
Proof.
  eexists _, _. split; [reflexivity|]. split; [reflexivity|].
  apply (proj2 (parseSeconds_sign_symmetry "1:02.500")); reflexivity.
Defined.

Lemma Qdiv_1000 q : q / 1000 == q * (1 # 1000).
Proof. reflexivity. Qed.

Lemma whole_ms (sign m s f : Z) :
  inject_Z sign * (inject_Z m * 60 + inject_Z s + inject_Z f / 1000)
  == inject_Z (sign * (m * 60000 + s * 1000 + f)) / 1000.
Proof.
  rewrite !Qdiv_1000, inject_Z_mult, !inject_Z_plus, !inject_Z_mult.
  change (inject_Z 60000) with 60000. change (inject_Z 1000) with 1000.
  ring.
Qed.

Lemma parseSeconds_whole input q :
  parseSeconds input = Some q -> exists ms : Z, q == inject_Z ms / 1000.
Proof.
  destruct input as [str|]; [|done].
  rewrite parseSeconds_body. cbv zeta.
  destruct (lapsTest _); [done|].
  destruct (trim _) as [|c v]; [done|].
  destruct (_ || _)%bool; [|done].
  set (sign := if Ascii.eqb c "-" then -1 else 1).
  assert (Hs : exists z, sign = inject_Z z).
  { unfold sign. destruct (Ascii.eqb c "-"); [by exists (-1)%Z|by exists 1%Z]. }
  destruct Hs as [z ->].
  destruct (matchHms v) as [[[m sec] f]|].
  { intros [= <-]. eexists. apply whole_ms. }
  destruct (matchSs v) as [[sec f]|]; [|done].
  intros [= <-]. exists (z * (0 * 60000 + parseInt sec * 1000 + millis f))%Z.
  rewrite <- whole_ms. change (inject_Z 0) with 0. ring.
Qed.



Lemma digitValue_range c : isDigit c = true -> (0 <= digitValue c <= 9)%Z.
Proof.
  unfold isDigit, digitValue. intros [H1 H2]%andb_true_iff.
  apply Nat.leb_le in H1, H2. lia.
Qed.

Lemma fold_digits_nonneg ds : forall acc,
  allDigits ds -> (0 <= acc)%Z ->
  (0 <= fold_left (fun acc c => 10 * acc + digitValue c) ds acc)%Z.
Proof.
  induction ds as [|c ds IH]; intros acc Hd Hacc; [done|].
  apply Forall_cons in Hd as [Hc Hd]. cbn [fold_left].
  apply IH; [done|]. pose proof (digitValue_range c Hc). lia.
Qed.

Lemma parseInt_nonneg ds : allDigits ds -> (0 <= parseInt ds)%Z.
Proof. intros H. by apply fold_digits_nonneg. Qed.

Lemma specMillis_nonneg f :
  match f with Some ds => allDigits ds | None => True end ->
  (0 <= specMillis f)%Z.
Proof.
  destruct f as [ds|]; [|done]. intros Hd. unfold specMillis.
  pose proof (parseInt_nonneg ds Hd). apply Z.mul_nonneg_nonneg; [done|].
  apply Z.pow_nonneg. lia.
Qed.

Lemma FractionPart_digits tail f :
  FractionPart tail f -> match f with Some ds => allDigits ds | None => True end.
Proof. by intros []. Qed.

Lemma deltaValue_nonneg v minutes seconds fraction :
  DeltaShape v minutes seconds fraction ->
  0 <= deltaValue false minutes seconds fraction.
Proof.
  intros (Hs & tail & Hf & Hrest). unfold deltaValue.
  pose proof (parseInt_nonneg seconds Hs) as H1.
  pose proof (specMillis_nonneg fraction (FractionPart_digits _ _ Hf)) as H2.
  assert (H3 : (0 <= match minutes with Some m => parseInt m | None => 0 end)%Z).
  { destruct minutes as [m|]; [|done]. destruct Hrest as (Hm & _).
    by apply parseInt_nonneg. }
  rewrite Qdiv_1000.
  assert (Q1 : 0 <= inject_Z (parseInt seconds)).
  { change 0 with (inject_Z 0). by rewrite <- Zle_Qle. }
  assert (Q2 : 0 <= inject_Z (specMillis fraction)).
  { change 0 with (inject_Z 0). by rewrite <- Zle_Qle. }
  assert (Q3 : 0 <= inject_Z (match minutes with Some m => parseInt m | None => 0%Z end)).
  { change 0 with (inject_Z 0). by rewrite <- Zle_Qle. }
  lra.
Qed.

Lemma shape_head_digit v minutes seconds fraction :
  DeltaShape v minutes seconds fraction ->
  exists c r, v = c :: r /\ isDigit c = true.
Proof.
  intros (Hs & tail & _ & Hrest). destruct minutes as [m|].
  - destruct Hrest as (Hm & Lm & _ & ->).
    destruct m as [|c m]; [cbn in Lm; lia|].
    apply Forall_cons in Hm as [Hc _]. by exists c, (m ++ ":"%char :: seconds ++ tail).
  - destruct Hrest as (L1 & ->).
    destruct seconds as [|c s]; [cbn in L1; lia|].
    apply Forall_cons in Hs as [Hc _]. by exists c, (s ++ tail).
Qed.

Lemma parseLapTime_body str :
  parseLapTimeToSeconds (Some str)
  = let s := trim (list_ascii_of_string str) in
    match matchHms s with
    | Some (m, sec, f) =>
        Some (inject_Z (parseInt m) * 60
              + inject_Z (parseInt sec)
              + inject_Z (millis f) / 1000)
    | None =>
        match matchSs s with
        | Some (sec, f) =>
            Some (inject_Z (parseInt sec) + inject_Z (millis f) / 1000)
        | None => None
        end
    end.
Proof.
  unfold parseLapTimeToSeconds.
  by destruct (list_ascii_of_string str) eqn:E.
Qed.

Lemma parseLapTime_value str minutes seconds fraction :
  DeltaShape (trim (list_ascii_of_string str)) minutes seconds fraction ->
  exists q, parseLapTimeToSeconds (Some str) = Some q /\
            q == deltaValue false minutes seconds fraction.
Proof.
  intros Hshape. rewrite parseLapTime_body. cbv zeta.
  unfold deltaValue. rewrite <- millis_spec.
  destruct minutes as [m|].
  - apply matchHms_iff in Hshape. rewrite Hshape. eexists. split; [done|]. ring.
  - rewrite (matchHms_none_of_seconds _ _ _ Hshape).
    apply matchSs_iff in Hshape. rewrite Hshape. eexists. split; [done|].
    change (inject_Z 0) with 0. ring.
Qed.

Lemma parseLapTime_fits str :
  is_Some (parseLapTimeToSeconds (Some str)) ->
  FitsGrammar (trim (list_ascii_of_string str)).
Proof.
  intros [q Hq]. rewrite parseLapTime_body in Hq. cbv zeta in Hq.
  destruct (matchHms _) as [[[m sec] f]|] eqn:Eh.
  { exists (Some m), sec, f. by apply matchHms_iff. }
  destruct (matchSs _) as [[sec f]|] eqn:Ess; [|done].
  exists None, sec, f. by apply matchSs_iff.
Qed.

(** A text that fits the lap-time grammar is rejected by [parseSeconds]. *)
Lemma lap_time_is_no_delta str :
  FitsGrammar (trim (list_ascii_of_string str)) ->
  parseSeconds (Some str) = None.
Proof.
  intros (m & s & f & Hshape). apply parseSeconds_none_iff.
  right. right. left. intros (negative & v & E).
  destruct (shape_head_digit _ _ _ _ Hshape) as (c & r & E' & Hc).
  rewrite E in E'. injection E' as <- _. by destruct negative.
Qed.

(** X5.  [parseLapTimeToSeconds] accepts exactly the texts whose trimmed
    form is [minutes:seconds[.fraction]] or [seconds[.fraction]], returns
    [minutes * 60 + seconds + milliseconds / 1000], which is never negative,
    and accepts nothing that [parseSeconds] accepts. *)
Theorem parseLapTimeToSeconds_grammar (str : string) :
  (is_Some (parseLapTimeToSeconds (Some str)) <->
   FitsGrammar (trim (list_ascii_of_string str))) /\
  (forall minutes seconds fraction,
     DeltaShape (trim (list_ascii_of_string str)) minutes seconds fraction ->
     exists q, parseLapTimeToSeconds (Some str) = Some q /\
               q == deltaValue false minutes seconds fraction) /\
  (forall q, parseLapTimeToSeconds (Some str) = Some q -> 0 <= q) /\
  (is_Some (parseLapTimeToSeconds (Some str)) ->
   parseSeconds (Some str) = None).
Proof.
  split; [|split; [apply parseLapTime_value|split]].
  - split; [apply parseLapTime_fits|].
    intros (m & s & f & Hshape).
    destruct (parseLapTime_value str m s f Hshape) as (q & -> & _). by eexists.
  - intros q Hq.
    destruct (parseLapTime_fits str) as (m & s & f & Hshape); [by eexists|].
    destruct (parseLapTime_value str m s f Hshape) as (q' & Hq' & E).
    rewrite Hq in Hq'. injection Hq' as <-. rewrite E.
    by eapply deltaValue_nonneg.
  - intros H. by apply lap_time_is_no_delta, parseLapTime_fits.
Qed.

Lemma parseLapTimeToSeconds_grammar_witness :
  parseSeconds (Some "1:20.901"%string) = None.
Proof.
  apply (proj2 (proj2 (proj2 (parseLapTimeToSeconds_grammar "1:20.901")))).
  by eexists.
Defined.

Lemma lapCandidate_lower t v : Circle.lapCandidate t = Some v -> 10 < v.
Proof.
  unfold Circle.lapCandidate.
  destruct (parseSeconds _) as [q|]; [|done].
  destruct (negb (Qeq_bool q 0)); [|done]. cbn [andb].
  destruct (Qgtb q 10) eqn:E; [|done].
  intros [= <-]. by apply Qgtb_true.
Qed.

Lemma lapCandidate_of_lap_time t :
  lapTimeOrAbsent t -> Circle.lapCandidate t = None.
Proof.
  unfold lapTimeOrAbsent, Circle.lapCandidate.
  destruct (t ≫= lap_value) as [text|]; [|done].
  intros H. by rewrite lap_time_is_no_delta by (by apply parseLapTime_fits).
Qed.

Lemma getLapSecondsForLeader_lower leader :
  10 < Circle.getLapSecondsForLeader leader.
Proof.
  unfold Circle.getLapSecondsForLeader.
  destruct (Circle.lapCandidate (_ ≫= lastLapTime)) eqn:E1;
    [by eapply lapCandidate_lower|].
  destruct (Circle.lapCandidate (_ ≫= bestLapTime)) eqn:E2;
    [by eapply lapCandidate_lower|].
  lra.
Qed.

(** X6.  The Circle's lap length for the leader is always more than ten
    seconds, 90 when no field gives one; and because it is read with
    [parseSeconds], which wants a sign, a leader whose lap-time fields are
    absent or hold lap times as [parseLapTimeToSeconds] reads them always
    gets 90. *)
Theorem getLapSecondsForLeader_default (leader : option TimingDataDriver) :
  10 < Circle.getLapSecondsForLeader leader /\
  (lapTimeOrAbsent (leader ≫= lastLapTime) ->
   lapTimeOrAbsent (leader ≫= bestLapTime) ->
   Circle.getLapSecondsForLeader leader = 90).
Proof.
  split; [apply getLapSecondsForLeader_lower|].
  unfold Circle.getLapSecondsForLeader.
  intros H1 H2. by rewrite !lapCandidate_of_lap_time.
Qed.

Lemma getLapSecondsForLeader_default_witness :
  Circle.getLapSecondsForLeader (Some lapLeader) = 90.
Proof.
  apply (proj2 (getLapSecondsForLeader_default (Some lapLeader)));
    [by eexists|done].
Defined.

(* ===================================================================== *)
(** ** Invariants of the reconstructed gaps *)
(* ===================================================================== *)

Lemma Qmax_cases a b : Qmax a b = a \/ Qmax a b = b.
Proof. unfold Qmax, GenericMinMax.gmax. destruct (a ?= b); auto. Qed.

Lemma wholeMillis_zero : wholeMillis 0.
Proof. split; [lra|]. by exists 0%Z. Qed.

Lemma wholeMillis_max0 v :
  (exists ms : Z, v == inject_Z ms / 1000) -> wholeMillis (Qmax 0 v).
Proof.
  intros Hv. split; [apply Q.le_max_l|].
  destruct (Qmax_cases 0 v) as [-> | ->]; [by exists 0%Z|done].
Qed.

Lemma firstParsed_whole cands v :
  firstParsed cands = Some v -> exists ms : Z, v == inject_Z ms / 1000.
Proof.
  induction cands as [|c cands IH]; [done|]. cbn [firstParsed].
  destruct (parseSeconds c) as [q|] eqn:E; [|done].
  intros [= <-]. by eapply parseSeconds_whole.
Qed.

Lemma specGap_whole select sessionPart g d :
  wholeMillis g -> wholeMillis (specGap select sessionPart g d).
Proof.
  intros [_ [zg Hg]]. unfold specGap.
  destruct (specDirect select sessionPart d) as [v|] eqn:Ed.
  { apply wholeMillis_max0. by eapply firstParsed_whole. }
  apply wholeMillis_max0.
  destruct (specInterval select sessionPart d) as [v|] eqn:Ei; cbn [default].
  - destruct (firstParsed_whole _ _ Ei) as [zv Hv].
    exists (zg + zv)%Z. unfold id. rewrite Hg, Hv, inject_Z_plus, !Qdiv_1000. ring.
  - exists zg. unfold id. rewrite Hg. ring.
Qed.

Lemma specFold_whole select sessionPart rest : forall g,
  wholeMillis g ->
  Forall (fun e => wholeMillis e.2) (specFold select sessionPart g rest).
Proof.
  induction rest as [|d rest IH]; intros g Hg; cbn [specFold]; [constructor|].
  constructor; [by apply specGap_whole|]. by apply IH, specGap_whole.
Qed.

Lemma reconstruct_whole select sessionPart ordered :
  Forall (fun e => wholeMillis e.2) (reconstruct select sessionPart ordered).
Proof.
  destruct ordered as [|first rest]; [constructor|]. cbn [reconstruct].
  constructor; [apply wholeMillis_zero|]. apply specFold_whole, wholeMillis_zero.
Qed.

Lemma fold_insert_source (entries : list (string * Q)) :
  forall (m : gmap string Q) k g,
  fold_left (fun m e => <[e.1 := e.2]> m) entries m !! k = Some g ->
  In (k, g) entries \/ m !! k = Some g.
Proof.
  induction entries as [|[k' g'] entries IH]; intros m k g; cbn [fold_left].
  { by right. }
  intros H. apply IH in H as [H|H]; [left; by right|]. cbn in H.
  apply lookup_insert_Some in H as [[-> ->]|[_ H]]; [left; by left|by right].
Qed.

Lemma stored_gap_whole ordered sessionPart k g :
  computeGapsSeconds ordered sessionPart !! k = Some g -> wholeMillis g.
Proof.
  rewrite computeGapsSeconds_fold. unfold gapMapOf.
  intros [Hin|Hempty]%fold_insert_source; [|by rewrite lookup_empty in Hempty].
  pose proof (reconstruct_whole statOfPart sessionPart ordered) as Hall.
  rewrite Forall_forall in Hall. apply list_elem_of_In in Hin.
  apply (Hall _ Hin).
Qed.



Lemma specFold_take select sessionPart rest : forall g n,
  specFold select sessionPart g (take n rest)
  = take n (specFold select sessionPart g rest).
Proof.
  induction rest as [|d rest IH]; intros g [|n]; cbn; try done.
  by rewrite IH.
Qed.

Lemma reconstruct_take select sessionPart ordered n :
  reconstruct select sessionPart (take n ordered)
  = take n (reconstruct select sessionPart ordered).
Proof.
  destruct ordered as [|first rest], n as [|n]; cbn; try done.
  by rewrite specFold_take.
Qed.

(** The entry of the driver at index [i]. *)
Lemma reconstruct_entry sessionPart ordered i d :
  ordered !! i = Some d ->
  exists g, reconstruct statOfPart sessionPart ordered !! i
            = Some (racingNumber d, g).
Proof.
  intros Hi.
  pose proof (reconstruct_keys sessionPart ordered) as Hk.
  assert (Hk' : (map fst (reconstruct statOfPart sessionPart ordered)) !! i
                = Some (racingNumber d)).
  { rewrite Hk. change (map racingNumber ordered) with (racingNumber <$> ordered).
    by rewrite list_lookup_fmap, Hi. }
  change (map fst (reconstruct statOfPart sessionPart ordered))
    with (fst <$> reconstruct statOfPart sessionPart ordered) in Hk'.
  rewrite list_lookup_fmap in Hk'.
  destruct (reconstruct statOfPart sessionPart ordered !! i) as [[k g]|];
    [|done].
  injection Hk' as ->. by exists g.
Qed.

Lemma gap_at_index sessionPart ordered i k g :
  List.NoDup (map racingNumber ordered) ->
  reconstruct statOfPart sessionPart ordered !! i = Some (k, g) ->
  computeGapsSeconds ordered sessionPart !! k = Some g.
Proof.
  intros Hnd Hi. rewrite computeGapsSeconds_fold. unfold gapMapOf.
  rewrite <- (reconstruct_keys sessionPart) in Hnd.
  by apply (fold_insert_lookup _ ∅ i).
Qed.

Lemma NoDup_take_numbers (ordered : list TimingDataDriver) n :
  List.NoDup (map racingNumber ordered) ->
  List.NoDup (map racingNumber (take n ordered)).
Proof.
  intros H. rewrite <- (take_drop n ordered), map_app in H.
  by apply List.NoDup_app_remove_r in H.
Qed.

(** X8.  The fold runs from the leader down, so cutting the list after any
    driver leaves the gaps of the drivers kept unchanged: the gaps of the
    visible drivers do not depend on the drivers the top-N cutoff hides. *)
Theorem gaps_of_prefix_unchanged
    (ordered : list TimingDataDriver) (sessionPart : option Z) :
  List.NoDup (map racingNumber ordered) ->
  (forall n d, In d (take n ordered) ->
     computeGapsSeconds (take n ordered) sessionPart !! racingNumber d
     = computeGapsSeconds ordered sessionPart !! racingNumber d) /\
  (forall settings d, In d (Vertical.visible settings ordered) ->
     Vertical.gapOf (Vertical.visible settings ordered) sessionPart d
     = Vertical.gapOf ordered sessionPart d).
Proof.
  intros Hnd.
  assert (H : forall n d, In d (take n ordered) ->
     computeGapsSeconds (take n ordered) sessionPart !! racingNumber d
     = computeGapsSeconds ordered sessionPart !! racingNumber d).
  { intros n d Hin.
    apply list_elem_of_In, list_elem_of_lookup in Hin as [i Hi].
    assert (Hlt : (i < n)%nat).
    { apply lookup_lt_Some in Hi. rewrite length_take in Hi. lia. }
    destruct (reconstruct_entry sessionPart (take n ordered) i d Hi) as [g Hg].
    rewrite (gap_at_index sessionPart (take n ordered) i _ g);
      [|by apply NoDup_take_numbers|done].
    rewrite reconstruct_take, lookup_take_lt in Hg by done.
    by rewrite (gap_at_index sessionPart ordered i _ g). }
  split; [exact H|].
  intros settings d Hin. unfold Vertical.gapOf, Vertical.gaps.
  unfold Vertical.visible, sliceTopN in *. cbv zeta in *. by rewrite H.
Qed.

Lemma gaps_of_prefix_unchanged_witness :
  computeGapsSeconds (take 2 threeDrivers) None !! "44"%string
  = computeGapsSeconds threeDrivers None !! "44"%string.
Proof.
  apply (proj1 (gaps_of_prefix_unchanged threeDrivers None
                  ltac:(repeat constructor; cbn; intuition discriminate))
           2%nat (mkDriver "44" (Some "+1.0"%string) None)).
  right. left. reflexivity.
Defined.

(** X9.  A driver with no direct gap that parses is placed behind the
    driver ahead by exactly its interval when that interval is absent or
    not negative: its gap is the gap ahead plus the interval, hence never
    smaller than the gap ahead. *)
Theorem chained_gap_adds_interval
    (ordered : list TimingDataDriver) (sessionPart : option Z) i prev d :
  List.NoDup (map racingNumber ordered) ->
  ordered !! i = Some prev -> ordered !! S i = Some d ->
  getGapToLeaderSeconds d sessionPart = None ->
  0 <= default 0 (getIntervalAheadSeconds d sessionPart) ->
  exists gprev gd,
    computeGapsSeconds ordered sessionPart !! racingNumber prev = Some gprev /\
    computeGapsSeconds ordered sessionPart !! racingNumber d = Some gd /\
    gd == gprev + default 0 (getIntervalAheadSeconds d sessionPart) /\
    gprev <= gd.
Proof.
  intros Hnd Hprev Hd Hdirect Hstep.
  destruct ordered as [|first rest]; [done|].
  destruct (specFold_chain sessionPart rest first 0 i prev d Hprev Hd)
    as (g & Ei & ESi).
  pose proof (gap_at_index sessionPart (first :: rest) i _ _ Hnd Ei) as Hg.
  pose proof (gap_at_index sessionPart (first :: rest) (S i) _ _ Hnd ESi) as Hgd.
  exists g, (specGap statOfPart sessionPart g d).
  split; [done|]. split; [done|].
  destruct (stored_gap_whole _ _ _ _ Hg) as [Hg0 _].
  unfold specGap.
  rewrite <- getGapToLeaderSeconds_spec, Hdirect,
    <- getIntervalAheadSeconds_spec.
  set (step := default 0 (getIntervalAheadSeconds d sessionPart)) in *.
  assert (E : Qmax 0 (g + step) == g + step) by (apply Q.max_r; lra).
  rewrite E. split; [reflexivity|lra].
Qed.

Lemma chained_gap_adds_interval_witness :
  exists gprev gd,
    computeGapsSeconds threeDrivers None !! "44"%string = Some gprev /\
    computeGapsSeconds threeDrivers None !! "16"%string = Some gd /\
    gd == gprev + 0.500 /\ gprev <= gd.
Proof.
  apply (chained_gap_adds_interval threeDrivers None 1%nat
           (mkDriver "44" (Some "+1.0"%string) None)
           (mkDriver "16" None (Some "+0.5"%string))).
  - repeat constructor; cbn; intuition discriminate.
  - reflexivity.
  - reflexivity.
  - reflexivity.
  - by vm_compute.
Defined.

(* ===================================================================== *)
(** ** The Circle mapper *)
(* ===================================================================== *)

Lemma Qdiv_pos a b : 0 < a -> 0 < b -> 0 < a / b.
Proof.
  intros Ha Hb. destruct (inv_pos_facts b Hb) as [K _]. unfold Qdiv. nra.
Qed.

Section CircleFacts.
Variable settings : Settings.
Variable ordered : list TimingDataDriver.
Variable sessionPart : option Z.

Abbreviation mapGapToAngle := (Circle.mapGapToAngle settings ordered sessionPart).
Abbreviation linearBase := (Circle.linearBase settings ordered sessionPart).
Abbreviation spreadSeconds := (Circle.spreadSeconds settings ordered sessionPart).
Abbreviation piecewiseStretch := (Circle.piecewiseStretch settings ordered sessionPart).
Abbreviation dots := (Circle.dots settings ordered sessionPart).
Abbreviation scaleType := (Circle.scaleType settings).
Abbreviation G1 := (Circle.G1 settings).
Abbreviation G2 := (Circle.G2 settings).

Lemma circle_spreadSeconds_pos : 0 < spreadSeconds.
Proof.
  unfold Circle.spreadSeconds. cbv zeta.
  match goal with |- context [Qgtb ?m 0] =>
    destruct (Qgtb m 0) eqn:E; [by apply Qgtb_true in E|] end.
  pose proof (getLapSecondsForLeader_lower (Circle.leader ordered)) as H.
  unfold Circle.lapSeconds. rewrite orDefault_nonzero by lra. lra.
Qed.

Lemma circle_linearBase_pos : 0 < linearBase.
Proof.
  unfold Circle.linearBase. destruct (Circle.scaleType settings);
    try apply circle_spreadSeconds_pos.
  apply Qlt_le_trans with 1; [lra|apply Q.le_max_l].
Qed.

Lemma mapGapToAngle_range g : 0 <= mapGapToAngle g <= 360.
Proof.
  pose proof (effG1_lower settings) as H1.
  pose proof (effG2_lower settings) as H2.
  pose proof circle_linearBase_pos as HB.
  unfold Circle.mapGapToAngle, Circle.G1, Circle.G2, Number_isFinite.
  cbn [negb orb].
  destruct (inv_pos_facts (effG1 settings)) as [K1 E1]; [lra|].
  destruct (inv_pos_facts (effG2 settings - effG1 settings)) as [K2 E2]; [lra|].
  destruct (inv_pos_facts linearBase) as [K3 E3]; [lra|].
  unfold Qdiv.
  destruct (Circle.scaleType settings); qcases; qminmax; nra.
Qed.

Lemma mapGapToAngle_mono a b : a <= b -> mapGapToAngle a <= mapGapToAngle b.
Proof.
  intros Hab.
  pose proof (effG1_lower settings) as H1.
  pose proof (effG2_lower settings) as H2.
  pose proof circle_linearBase_pos as HB.
  unfold Circle.mapGapToAngle, Circle.G1, Circle.G2, Number_isFinite.
  cbn [negb orb].
  destruct (inv_pos_facts (effG1 settings)) as [K1 E1]; [lra|].
  destruct (inv_pos_facts (effG2 settings - effG1 settings)) as [K2 E2]; [lra|].
  destruct (inv_pos_facts linearBase) as [K3 E3]; [lra|].
  unfold Qdiv.
  destruct (Circle.scaleType settings); qcases; qminmax; nra.
Qed.

(** In piecewise mode the inner function of [piecewiseStretch] is the
    mapper itself. *)
Lemma baseAngle_is_mapper g :
  scaleType = piecewise ->
  Circle.baseAngle settings g = mapGapToAngle g.
Proof.
  intros Hmode. unfold Circle.baseAngle, Circle.mapGapToAngle.
  by rewrite Hmode.
Qed.

Lemma circle_piecewiseStretch_lower : 1 <= piecewiseStretch.
Proof.
  unfold Circle.piecewiseStretch.
  destruct (Circle.scaleType settings) eqn:Hmode; try lra. cbv zeta.
  rewrite baseAngle_is_mapper by done.
  match goal with |- context [Circle.mapGapToAngle _ _ _ ?g] =>
    pose proof (mapGapToAngle_range g) as Hr;
    generalize dependent (mapGapToAngle g)
  end.
  intros u Hr.
  destruct (Qle_bool u 0) eqn:Eu; [cbn; lra|].
  destruct (Qle_bool 360 u) eqn:Eu1; [cbn; lra|]. cbn [orb].
  qbool. destruct (inv_pos_facts u) as [K E]; [lra|].
  unfold Qdiv. nra.
Qed.

(** The angle [dots] gives to a gap. *)
Lemma circle_in_dots dot :
  In dot dots <->
  exists d, In d (Circle.visible settings ordered) /\
    dot = {| Circle.angle :=
               Qmin 359.9
                 (match scaleType with
                  | piecewise =>
                      mapGapToAngle (Circle.gapOf ordered sessionPart d)
                      * piecewiseStretch
                  | _ => mapGapToAngle (Circle.gapOf ordered sessionPart d)
                  end);
             Circle.dotRacingNumber := racingNumber d;
             Circle.gap := Circle.gapOf ordered sessionPart d;
             Circle.overMax :=
               Qgtb (Circle.gapOf ordered sessionPart d)
                    (Circle.base settings ordered sessionPart) |}.
Proof.
  unfold Circle.dots. rewrite in_map_iff. split.
  - intros (d & <- & Hd). eauto.
  - intros (d & Hd & ->). eauto.
Qed.

Lemma circle_dot_angle dot :
  In dot dots ->
  Circle.angle dot
  = Qmin 359.9
      (match scaleType with
       | piecewise => mapGapToAngle (Circle.gap dot) * piecewiseStretch
       | _ => mapGapToAngle (Circle.gap dot)
       end).
Proof. rewrite circle_in_dots. intros (d & _ & ->). done. Qed.

Lemma circle_dot_overMax dot :
  In dot dots ->
  Circle.overMax dot
  = Qgtb (Circle.gap dot) (Circle.base settings ordered sessionPart).
Proof. rewrite circle_in_dots. intros (d & _ & ->). done. Qed.


End CircleFacts.


(* ===================================================================== *)
(** ** Dots at the ends of the scale *)
(* ===================================================================== *)

Section Ends.
Variable settings : Settings.
Variable ordered : list TimingDataDriver.
Variable sessionPart : option Z.

Abbreviation mapGapToUnit := (Vertical.mapGapToUnit settings ordered sessionPart).
Abbreviation mapGapToAngle := (Circle.mapGapToAngle settings ordered sessionPart).
Abbreviation vdots := (Vertical.dots settings ordered sessionPart).
Abbreviation cdots := (Circle.dots settings ordered sessionPart).
Abbreviation scaleType := (Vertical.scaleType settings).
Abbreviation baseSec := (Vertical.baseSec settings ordered sessionPart).
Abbreviation base := (Circle.base settings ordered sessionPart).

Lemma over_base_unit g : baseSec < g -> mapGapToUnit g == 1.
Proof.
  intros Hg.
  pose proof (effG1_lower settings) as H1.
  pose proof (effG2_lower settings) as H2.
  pose proof (linearBase_lower settings ordered sessionPart) as HB.
  unfold Vertical.baseSec in Hg.
  unfold Vertical.mapGapToUnit, Vertical.G1, Vertical.G2 in *.
  cbn [Number_isFinite negb orb].
  destruct (inv_pos_facts (Vertical.linearBase settings ordered sessionPart))
    as [K3 E3]; [lra|].
  unfold Qdiv.
  destruct (Vertical.scaleType settings); qcases; qminmax; nra.
Qed.

Lemma over_base_angle g : base < g -> mapGapToAngle g == 360.
Proof.
  intros Hg.
  pose proof (effG1_lower settings) as H1.
  pose proof (effG2_lower settings) as H2.
  pose proof (circle_linearBase_pos settings ordered sessionPart) as HB.
  unfold Circle.base in Hg.
  unfold Circle.mapGapToAngle, Circle.G1, Circle.G2 in *.
  cbn [Number_isFinite negb orb].
  destruct (inv_pos_facts (Circle.linearBase settings ordered sessionPart))
    as [K3 E3]; [lra|].
  unfold Qdiv.
  destruct (Circle.scaleType settings); qcases; qminmax; nra.
Qed.

End Ends.


Section Farthest.
Variable settings : Settings.
Variable ordered : list TimingDataDriver.
Variable sessionPart : option Z.

Abbreviation mapGapToUnit := (Vertical.mapGapToUnit settings ordered sessionPart).
Abbreviation mapGapToAngle := (Circle.mapGapToAngle settings ordered sessionPart).
Abbreviation vdots := (Vertical.dots settings ordered sessionPart).
Abbreviation cdots := (Circle.dots settings ordered sessionPart).
Abbreviation scaleType := (Vertical.scaleType settings).
Abbreviation maxGap :=
  (Math_max (map (Circle.gapOf ordered sessionPart)
                 (Circle.visible settings ordered) ++ [0])).

Lemma mapGapToUnit_pos g : 0 < g -> 0 < mapGapToUnit g.
Proof.
  intros Hg.
  pose proof (effG1_lower settings) as H1.
  pose proof (effG2_lower settings) as H2.
  pose proof (linearBase_lower settings ordered sessionPart) as HB.
  unfold Vertical.mapGapToUnit, Vertical.G1, Vertical.G2.
  cbn [Number_isFinite negb orb].
  destruct (inv_pos_facts (effG1 settings)) as [K1 E1]; [lra|].
  destruct (inv_pos_facts (effG2 settings - effG1 settings)) as [K2 E2]; [lra|].
  destruct (inv_pos_facts (Vertical.linearBase settings ordered sessionPart))
    as [K3 E3]; [lra|].
  unfold Qdiv.
  destruct (Vertical.scaleType settings); qcases; qminmax; nra.
Qed.

Lemma mapGapToAngle_pos g : 0 < g -> 0 < mapGapToAngle g.
Proof.
  intros Hg.
  pose proof (effG1_lower settings) as H1.
  pose proof (effG2_lower settings) as H2.
  pose proof (circle_linearBase_pos settings ordered sessionPart) as HB.
  unfold Circle.mapGapToAngle, Circle.G1, Circle.G2.
  cbn [Number_isFinite negb orb].
  destruct (inv_pos_facts (effG1 settings)) as [K1 E1]; [lra|].
  destruct (inv_pos_facts (effG2 settings - effG1 settings)) as [K2 E2]; [lra|].
  destruct (inv_pos_facts (Circle.linearBase settings ordered sessionPart))
    as [K3 E3]; [lra|].
  unfold Qdiv.
  destruct (Circle.scaleType settings); qcases; qminmax; nra.
Qed.

(** The largest visible gap has the angle of the farthest dot. *)
Lemma circle_farthest_angle dot :
  In dot cdots ->
  (forall dot', In dot' cdots -> Circle.gap dot' <= Circle.gap dot) ->
  0 < Circle.gap dot ->
  mapGapToAngle maxGap == mapGapToAngle (Circle.gap dot).
Proof.
  intros Hdot Hfar Hpos. apply Qle_antisym; apply mapGapToAngle_mono.
  - assert (Hin : In maxGap (map (Circle.gapOf ordered sessionPart)
                               (Circle.visible settings ordered) ++ [0])).
    { apply Math_max_in. by destruct (map _ _). }
    apply in_app_or in Hin as [(d & E & Hd)%in_map_iff|[E|[]]];
      rewrite <- E; [|lra].
    pose proof (proj2 (circle_in_dots settings ordered sessionPart _)
                  (ex_intro _ d (conj Hd eq_refl))) as Hd'.
    exact (Hfar _ Hd').
  - apply circle_in_dots in Hdot as (d & Hd & ->). cbn.
    apply Math_max_upper, in_or_app. left. apply in_map_iff. eauto.
Qed.
End Farthest.


(* ===================================================================== *)
(** ** The leader, and the dots on the axis *)
(* ===================================================================== *)

Lemma sliceTopN_head topN first rest :
  exists tl, sliceTopN topN (first :: rest) = first :: tl.
Proof.
  unfold sliceTopN. cbv zeta.
  set (len := Z.of_nat (length (first :: rest))).
  assert (Hlen : (1 <= len)%Z) by (unfold len; cbn [length]; lia).
  set (n := if (negb (topN =? 0) && (0 <? topN))%Z then Z.min topN len else len).
  assert (Hn : (1 <= n)%Z).
  { unfold n. destruct (negb (topN =? 0)%Z && (0 <? topN)%Z) eqn:E; [|done].
    apply andb_true_iff in E as [_ E%Z.ltb_lt]. lia. }
  destruct (Z.to_nat n) as [|k] eqn:Ek; [lia|].
  by exists (take k rest).
Qed.

Lemma leader_gap sessionPart first rest :
  List.NoDup (map racingNumber (first :: rest)) ->
  Vertical.gapOf (first :: rest) sessionPart first = 0.
Proof.
  intros Hnd. unfold Vertical.gapOf, Vertical.gaps.
  by rewrite (gap_at_index sessionPart (first :: rest) 0 (racingNumber first) 0).
Qed.

Section Leader.
Variable settings : Settings.
Variable sessionPart : option Z.
Variable first : TimingDataDriver.
Variable rest : list TimingDataDriver.

Abbreviation ordered := (first :: rest).

Lemma vertical_baseSec_pos : 0 < Vertical.baseSec settings ordered sessionPart.
Proof.
  pose proof (effG1_lower settings). pose proof (effG2_lower settings).
  pose proof (linearBase_lower settings ordered sessionPart).
  unfold Vertical.baseSec, Vertical.G2.
  destruct (Vertical.scaleType settings); lra.
Qed.

Lemma circle_base_pos : 0 < Circle.base settings ordered sessionPart.
Proof.
  pose proof (effG1_lower settings). pose proof (effG2_lower settings).
  pose proof (circle_linearBase_pos settings ordered sessionPart).
  unfold Circle.base, Circle.G2.
  destruct (Circle.scaleType settings); lra.
Qed.

End Leader.


Section Axis.
Variable settings : Settings.
Variable ordered : list TimingDataDriver.
Variable sessionPart : option Z.
Variable height : Q.

Abbreviation unitOf := (Vertical.unitOf settings ordered sessionPart).
Abbreviation dots := (Vertical.dots settings ordered sessionPart).

Lemma unitOf_range g : 0 <= unitOf g <= 1.
Proof.
  unfold Vertical.unitOf. cbv zeta.
  pose proof (mapGapToUnit_range settings ordered sessionPart g).
  pose proof (stretchFactor_lower settings ordered sessionPart).
  qminmax; nra.
Qed.

Lemma unitOf_mono a b : a <= b -> unitOf a <= unitOf b.
Proof.
  intros Hab. unfold Vertical.unitOf. cbv zeta.
  pose proof (mapGapToUnit_mono settings ordered sessionPart a b Hab).
  pose proof (mapGapToUnit_range settings ordered sessionPart a).
  pose proof (mapGapToUnit_range settings ordered sessionPart b).
  pose proof (stretchFactor_lower settings ordered sessionPart).
  qminmax; nra.
Qed.

End Axis.


(* ===================================================================== *)
(** ** The tick loops *)
(* ===================================================================== *)

Lemma Qceiling_unique x z :
  inject_Z (z - 1) < x -> x <= inject_Z z -> Qceiling x = z.
Proof.
  intros Hlo Hhi.
  pose proof (Qle_ceiling x) as H1. pose proof (Qceiling_lt x) as H2.
  assert (A : inject_Z (z - 1) < inject_Z (Qceiling x)) by lra.
  assert (B : inject_Z (Qceiling x - 1) < inject_Z z) by lra.
  rewrite <- Zlt_Qlt in A, B. lia.
Qed.

Lemma turns_done start step bound :
  0 < step -> bound <= start -> turns start step bound = 0%nat.
Proof.
  intros Hs Hb. unfold turns.
  assert (H : (bound - start) / step <= 0).
  { destruct (inv_pos_facts step Hs) as [K _]. unfold Qdiv. nra. }
  apply Qceiling_resp_le in H. change (Qceiling 0) with 0%Z in H. lia.
Qed.

Lemma turns_step start step bound :
  0 < step -> start < bound ->
  turns start step bound = S (turns (start + step) step bound).
Proof.
  intros Hs Hb. unfold turns.
  destruct (inv_pos_facts step Hs) as [K E].
  set (x := (bound - start) / step).
  assert (Hx : 0 < x) by (unfold x, Qdiv; nra).
  assert (Ey : (bound - (start + step)) / step == x - 1).
  { unfold x. field. lra. }
  pose proof (Qle_ceiling x) as H1. pose proof (Qceiling_lt x) as H2.
  assert (Hc : (1 <= Qceiling x)%Z).
  { assert (A : inject_Z 0 < inject_Z (Qceiling x)) by (change (inject_Z 0) with 0; lra).
    rewrite <- Zlt_Qlt in A. lia. }
  assert (Ec : Qceiling ((bound - (start + step)) / step) = (Qceiling x - 1)%Z).
  { apply Qceiling_unique.
    - rewrite Ey. replace (Qceiling x - 1 - 1)%Z with (Qceiling x - 1 + -1)%Z by lia.
      rewrite inject_Z_plus. change (inject_Z (-1)) with (-1). lra.
    - rewrite Ey. 
      replace (Qceiling x - 1)%Z with (Qceiling x + -1)%Z by lia.
      rewrite inject_Z_plus. change (inject_Z (-1)) with (-1). lra. }
  rewrite Ec. lia.
Qed.

Lemma forSeconds_spec step bound :
  0 < step ->
  forall n start, turns start step bound = n ->
  (forall extra, forSeconds (n + extra) start step bound
                 = forSeconds n start step bound) /\
  length (forSeconds n start step bound) = n /\
  (forall i s, forSeconds n start step bound !! i = Some s ->
     s == start + inject_Z (Z.of_nat i) * step /\ s < bound) /\
  bound <= start + inject_Z (Z.of_nat n) * step.
Proof.
  intros Hs. induction n as [|n IH]; intros start Hn.
  - assert (Hb : bound <= start).
    { destruct (Qlt_le_dec start bound) as [Hlt|Hle]; [|done].
      rewrite (turns_step _ _ _ Hs Hlt) in Hn. done. }
    split; [|split; [done|split; [done|]]];
      [|change (inject_Z (Z.of_nat 0)) with 0; lra].
    intros [|extra]; [done|]. cbn.
    apply Qle_bool_iff in Hb. unfold Qgtb. by rewrite Hb.
  - assert (Hlt : start < bound).
    { destruct (Qlt_le_dec start bound) as [Hlt|Hle]; [done|].
      rewrite (turns_done _ _ _ Hs Hle) in Hn. done. }
    rewrite (turns_step _ _ _ Hs Hlt) in Hn. injection Hn as Hn.
    destruct (IH _ Hn) as (Hstable & Hlen & Hidx & Hend).
    assert (Hcond : Qgtb bound start = true) by (by apply Qgtb_true).
    cbn [Nat.add forSeconds]. rewrite Hcond.
    split; [|split; [|split]].
    + intros extra. by rewrite Hstable.
    + cbn [length]. by rewrite Hlen.
    + intros [|i] s.
      * intros [= <-]. split; [|done].
        change (inject_Z (Z.of_nat 0)) with 0. ring.
      * intros Hi. change (forSeconds n (start + step) step bound !! i = Some s) in Hi.
        destruct (Hidx _ _ Hi) as [E Hb]. split; [|done].
        rewrite E, Nat2Z.inj_succ, <- Z.add_1_r, inject_Z_plus.
        change (inject_Z 1) with 1. ring.
    + rewrite Nat2Z.inj_succ, <- Z.add_1_r, inject_Z_plus.
      change (inject_Z 1) with 1. lra.
Qed.

(** X16.  The tick loop [for (s = start; s < limit + 1e-6; s += step)], for
    a positive step, stops by its own test (more turns change nothing) and
    pushes exactly the values [start + i * step] below [limit + 1e-6], in
    increasing order. *)
Theorem tick_loop_seconds (start step limit : Q) :
  0 < step ->
  (forall extra,
     forSeconds (turns start step (limit + 0.000001) + extra) start step
                (limit + 0.000001)
     = secondsUpTo start step limit) /\
  (forall i s, secondsUpTo start step limit !! i = Some s ->
     s == start + inject_Z (Z.of_nat i) * step /\ s < limit + 0.000001) /\
  (forall i : nat,
     start + inject_Z (Z.of_nat i) * step < limit + 0.000001 ->
     (i < length (secondsUpTo start step limit))%nat).
Proof.
  intros Hs. unfold secondsUpTo.
  destruct (forSeconds_spec step (limit + 0.000001) Hs _ start eq_refl)
    as (Hstable & Hlen & Hidx & Hend).
  split; [exact Hstable|]. split; [exact Hidx|].
  intros i Hi. rewrite Hlen.
  set (n := turns start step (limit + 0.000001)) in *.
  destruct (Nat.lt_ge_cases i n) as [Hlt|Hge]; [done|].
  assert (A : inject_Z (Z.of_nat n) <= inject_Z (Z.of_nat i)).
  { rewrite <- Zle_Qle. lia. }
  nra.
Qed.

Lemma tick_loop_seconds_witness :
  secondsUpTo 1 1 3 !! 2%nat = Some (1 + 1 + 1) /\
  length (secondsUpTo 1 1 3) = 3%nat.
Proof.
  destruct (tick_loop_seconds 1 1 3 ltac:(lra)) as (_ & _ & Hall).
  split; [reflexivity|].
  pose proof (Hall 2%nat ltac:(by vm_compute)).
  assert (~ (3 < length (secondsUpTo 1 1 3))%nat) by (vm_compute; lia).
  lia.
Defined.

Lemma tick_loop_index step limit i s :
  0 < step -> secondsUpTo step step limit !! i = Some s ->
  s == step + inject_Z (Z.of_nat i) * step /\ s < limit + 0.000001.
Proof.
  intros Hs Hi.
  destruct (forSeconds_spec step (limit + 0.000001) Hs _ step eq_refl)
    as (_ & _ & Hidx & _).
  by apply Hidx.
Qed.

(** The seconds of a loop that starts at its step. *)
Lemma secondsUpTo_from_step step limit s :
  0 < step -> In s (secondsUpTo step step limit) ->
  exists i : nat,
    s == inject_Z (Z.of_nat (S i)) * step /\ s < limit + 0.000001 /\ 0 < s.
Proof.
  intros Hs Hin. apply list_elem_of_In, list_elem_of_lookup in Hin as [i Hi].
  destruct (forSeconds_spec step (limit + 0.000001) Hs _ step eq_refl)
    as (_ & _ & Hidx & _).
  destruct (Hidx i s Hi) as [E Hb]. exists i.
  assert (Hi0 : 0 <= inject_Z (Z.of_nat i)).
  { change 0 with (inject_Z 0). rewrite <- Zle_Qle. lia. }
  rewrite Nat2Z.inj_succ, <- Z.add_1_r, inject_Z_plus.
  change (inject_Z 1) with 1.
  split; [rewrite E; ring|]. split; [done|]. nra.
Qed.

(** A whole number below [z] plus a tolerance of at most 1 is at most [z]. *)
Lemma whole_below_tolerance (k z : Z) (e : Q) :
  e <= 1 -> inject_Z k < inject_Z z + e -> (k <= z)%Z.
Proof.
  intros He H. destruct (Z.le_gt_cases k z) as [Hle|Hgt]; [done|].
  assert (A : inject_Z (z + 1) <= inject_Z k) by (rewrite <- Zle_Qle; lia).
  rewrite inject_Z_plus in A. change (inject_Z 1) with 1 in A. lra.
Qed.

Section TickFacts.
Variable settings : Settings.
Variable ordered : list TimingDataDriver.
Variable sessionPart : option Z.
Variable height : Q.

Abbreviation base := (Vertical.linearBase settings ordered sessionPart).
Abbreviation limit := (tickLimit settings ordered sessionPart).
Abbreviation minor := (minorStep settings ordered sessionPart).
Abbreviation allTicks := (ticks settings ordered sessionPart height).
Abbreviation push := (pushTick settings ordered sessionPart height).

Lemma tickLimit_whole :
  exists z : Z, limit == inject_Z z /\ (z <= 30)%Z /\ inject_Z z <= base.
Proof.
  unfold tickLimit.
  pose proof (Qfloor_le base) as Hfl.
  destruct (Q.min_spec 30 (inject_Z (Qfloor base))) as [[Hlt E]|[Hle E]].
  - exists 30%Z. change (inject_Z 30) with 30.
    split; [done|]. split; [lia|lra].
  - exists (Qfloor base). split; [done|]. split; [|done].
    change 30 with (inject_Z 30) in Hle. by rewrite <- Zle_Qle in Hle.
Qed.

(** A whole-second tick of the linear modes is at most [limit]. *)
Lemma major_within_limit s :
  In s (secondsUpTo 1 1 limit) ->
  exists k : Z, s == inject_Z k /\ (1 <= k <= 30)%Z /\ s <= base.
Proof.
  intros Hin.
  destruct (secondsUpTo_from_step 1 limit s ltac:(lra) Hin)
    as (i & E & Hb & Hpos).
  destruct tickLimit_whole as (z & Ez & Hz & Hzb).
  exists (Z.of_nat (S i)).
  assert (Es : s == inject_Z (Z.of_nat (S i))) by (rewrite E; ring).
  assert (Hk : (Z.of_nat (S i) <= z)%Z).
  { apply (whole_below_tolerance _ _ 0.000001); lra. }
  split; [done|]. split; [lia|].
  assert (A : inject_Z (Z.of_nat (S i)) <= inject_Z z) by (by rewrite <- Zle_Qle).
  lra.
Qed.

(** A half-second tick of the linear modes is at most [limit]. *)
Lemma minor_within_limit s :
  In s (secondsUpTo 0.5 0.5 limit) -> 0 < s /\ s <= base.
Proof.
  intros Hin.
  destruct (secondsUpTo_from_step 0.5 limit s ltac:(lra) Hin)
    as (i & E & Hb & Hpos).
  destruct tickLimit_whole as (z & Ez & Hz & Hzb).
  split; [done|].
  assert (Hk : (Z.of_nat (S i) <= 2 * z)%Z).
  { apply (whole_below_tolerance _ _ 0.000002); [lra|].
    rewrite inject_Z_mult. change (inject_Z 2) with 2. lra. }
  assert (A : inject_Z (Z.of_nat (S i)) <= inject_Z (2 * z))
    by (by rewrite <- Zle_Qle).
  rewrite inject_Z_mult in A. change (inject_Z 2) with 2 in A. lra.
Qed.

Lemma minorStep_cases :
  (Qgtb minor 0 = true /\ minor = 0.5 /\ base <= 12) \/
  (Qgtb minor 0 = false /\ 12 < base).
Proof.
  unfold minorStep. destruct (Qle_bool base 12) eqn:E; qbool.
  - left. done.
  - right. done.
Qed.

(** The ticks of the linear modes. *)
Lemma in_linear_ticks t :
  Vertical.scaleType settings <> piecewise -> In t allTicks ->
  (exists s, In s (secondsUpTo 0.5 0.5 limit) /\ base <= 12 /\
             t = push s false) \/
  (exists s, In s (secondsUpTo 1 1 limit) /\ t = push s true).
Proof.
  intros Hmode. unfold ticks.
  assert (Hin : In t
     ((if Qgtb minor 0
       then map (fun s => push s false) (secondsUpTo minor minor limit)
       else [])
      ++ map (fun s => push s true) (secondsUpTo 1 1 limit)) ->
     (exists s, In s (secondsUpTo 0.5 0.5 limit) /\ base <= 12 /\
                t = push s false) \/
     (exists s, In s (secondsUpTo 1 1 limit) /\ t = push s true)).
  { intros [H|H]%in_app_or.
    - destruct minorStep_cases as [(Eg & Em & Hb)|[Eg _]];
        rewrite Eg in H; [|done].
      rewrite Em in H. apply in_map_iff in H as (s & <- & Hs). left.
      exists s. split; [exact Hs|]. split; [exact Hb|reflexivity].
    - apply in_map_iff in H as (s & <- & Hs). right.
      exists s. split; [exact Hs|reflexivity]. }
  destruct (Vertical.scaleType settings) eqn:E;
    [exfalso; apply Hmode; reflexivity|exact Hin|exact Hin].
Qed.

Lemma linear_unit s :
  Vertical.scaleType settings <> piecewise -> 0 < s -> s <= base ->
  Vertical.unitOf settings ordered sessionPart s == s / base.
Proof.
  intros Hmode Hpos Hle.
  pose proof (linearBase_lower settings ordered sessionPart) as HB.
  unfold Vertical.unitOf. cbv zeta.
  rewrite (mapGapToUnit_linear settings ordered sessionPart s Hmode Hpos).
  assert (Es : Vertical.stretchFactor settings ordered sessionPart = 1).
  { unfold Vertical.stretchFactor. by destruct (Vertical.scaleType settings). }
  rewrite Es.
  destruct (inv_pos_facts base ltac:(lra)) as [K E].
  assert (H1 : s / base <= 1) by (unfold Qdiv; nra).
  set (r := s / base) in *. clearbody r.
  assert (E1 : Qmin 1 r == r) by (apply Q.min_r; lra).
  rewrite E1, Qmult_1_r. apply Q.min_r. lra.
Qed.

(** X17.  In the fixed and spread modes every tick lies within the
    denominator of the scale, so no tick is clamped: a tick at [s] seconds
    is drawn at the fraction [s / base] of the axis.  Major ticks are whole
    seconds and there are at most 30 of them; minor ticks are drawn only
    when the denominator is at most 12 seconds. *)
Theorem linear_ticks_unclamped :
  Vertical.scaleType settings <> piecewise ->
  (forall t, In t allTicks ->
     0 < tickSec t /\ tickSec t <= base /\
     tickY t == yOf height (tickSec t / base)) /\
  (forall t, In t allTicks -> tickMajor t = true ->
     exists k : Z, tickSec t == inject_Z k /\ (1 <= k <= 30)%Z) /\
  (forall t, In t allTicks -> tickMajor t = false -> base <= 12) /\
  (length (List.filter tickMajor allTicks) <= 30)%nat.
Proof.
  intros Hmode.
  assert (Hy : forall s major, 0 < s -> s <= base ->
            tickY (push s major) == yOf height (s / base)).
  { intros s major Hpos Hle. cbn [pushTick tickY].
    pose proof (linear_unit s Hmode Hpos Hle) as E.
    unfold Vertical.unitOf in E. cbv zeta in E. unfold yOf. by rewrite E. }
  split; [|split; [|split]].
  - intros t [(s & Hs & _ & ->)|(s & Hs & ->)]%in_linear_ticks; [| |done].
    + destruct (minor_within_limit s Hs) as [Hpos Hle].
      split; [done|]. split; [done|]. by apply Hy.
    + destruct (major_within_limit s Hs) as (k & E & Hk & Hle).
      assert (Hpos : 0 < s).
      { assert (A : inject_Z 1 <= inject_Z k) by (rewrite <- Zle_Qle; lia).
        change (inject_Z 1) with 1 in A. lra. }
      split; [done|]. split; [done|]. by apply Hy.
  - intros t Hin Hmaj.
    apply in_linear_ticks in Hin as [(s & Hs & _ & ->)|(s & Hs & ->)];
      [done| |done].
    destruct (major_within_limit s Hs) as (k & E & Hk & _). by exists k.
  - intros t Hin Hmin.
    apply in_linear_ticks in Hin as [(s & Hs & Hb & ->)|(s & Hs & ->)];
      done.
  - assert (Hlen : (length (secondsUpTo 1 1 limit) <= 30)%nat).
    { destruct (length (secondsUpTo 1 1 limit)) as [|n] eqn:En; [lia|].
      assert (Hlast : exists s, secondsUpTo 1 1 limit !! n = Some s).
      { apply lookup_lt_is_Some. rewrite En. lia. }
      destruct Hlast as [s Hs].
      assert (Hin : In s (secondsUpTo 1 1 limit)).
      { apply list_elem_of_In, list_elem_of_lookup. eauto. }
      destruct (tick_loop_index 1 limit n s ltac:(lra) Hs) as [E _].
      destruct (major_within_limit s Hin) as (k & Ek & Hk & _).
      assert (A : inject_Z (Z.of_nat (S n)) == inject_Z k).
      { rewrite <- Ek, E, Nat2Z.inj_succ, <- Z.add_1_r, inject_Z_plus.
        change (inject_Z 1) with 1. ring. }
      apply (proj1 (inject_Z_injective _ _)) in A. lia. }
    unfold ticks.
    assert (Hf : forall l1 l2,
       (forall t, In t l1 -> tickMajor t = false) ->
       (forall t, In t l2 -> tickMajor t = true) ->
       length (List.filter tickMajor (l1 ++ l2)) = length l2).
    { intros l1 l2 H1 H2. rewrite List.filter_app, length_app.
      assert (E1 : List.filter tickMajor l1 = []).
      { induction l1 as [|a l1 IH]; [done|]. cbn.
        rewrite (H1 a) by (by left). apply IH. intros t Ht. apply H1. by right. }
      assert (E2 : List.filter tickMajor l2 = l2).
      { induction l2 as [|a l2 IH]; [done|]. cbn.
        rewrite (H2 a) by (by left). f_equal. apply IH.
        intros t Ht. apply H2. by right. }
      rewrite E1, E2. done. }
    assert (Hcount : (length (List.filter tickMajor
       ((if Qgtb minor 0
         then map (fun s => push s false) (secondsUpTo minor minor limit)
         else [])
        ++ map (fun s => push s true) (secondsUpTo 1 1 limit))) <= 30)%nat).
    { rewrite Hf.
      - rewrite length_map. done.
      - intros t Ht. destruct (Qgtb minor 0); [|done].
        by apply in_map_iff in Ht as (s & <- & _).
      - intros t Ht. by apply in_map_iff in Ht as (s & <- & _). }
    destruct (Vertical.scaleType settings); done.
Qed.
End TickFacts.

Lemma linear_ticks_unclamped_witness :
  (length (List.filter tickMajor (ticks fixedZeroSettings [] None 520)) <= 30)%nat.
Proof.
  apply (proj2 (proj2 (proj2
    (linear_ticks_unclamped fixedZeroSettings [] None 520 ltac:(done))))).
Defined.

Section TicksOnAxis.
Variable settings : Settings.
Variable ordered : list TimingDataDriver.
Variable sessionPart : option Z.
Variable height : Q.

Abbreviation allTicks := (ticks settings ordered sessionPart height).
Abbreviation push := (pushTick settings ordered sessionPart height).
Abbreviation G1 := (Vertical.G1 settings).
Abbreviation G2 := (Vertical.G2 settings).

Lemma in_piecewise_ticks t :
  Vertical.scaleType settings = piecewise -> In t allTicks ->
  (exists s, In s (secondsUpTo 0.5 0.5 G1) /\ t = push s false) \/
  (exists s, In s (secondsUpTo 1 1 G2) /\ t = push s true).
Proof.
  intros Hmode. unfold ticks. rewrite Hmode.
  intros [H|H]%in_app_or; apply in_map_iff in H as (s & <- & Hs);
    [left|right]; exists s; (split; [exact Hs|reflexivity]).
Qed.

Lemma in_ticks_positive t :
  In t allTicks -> exists s major, t = push s major /\ 0 < s.
Proof.
  intros Hin. destruct (Vertical.scaleType settings) eqn:Hmode.
  - apply in_piecewise_ticks in Hin as [(s & Hs & ->)|(s & Hs & ->)]; [| |done].
    + destruct (secondsUpTo_from_step 0.5 _ s ltac:(lra) Hs) as (_ & _ & _ & H).
      eexists _, _; split; [reflexivity|exact H].
    + destruct (secondsUpTo_from_step 1 _ s ltac:(lra) Hs) as (_ & _ & _ & H).
      eexists _, _; split; [reflexivity|exact H].
  - apply in_linear_ticks in Hin as [(s & Hs & _ & ->)|(s & Hs & ->)];
      [| |congruence].
    + destruct (secondsUpTo_from_step 0.5 _ s ltac:(lra) Hs) as (_ & _ & _ & H).
      eexists _, _; split; [reflexivity|exact H].
    + destruct (secondsUpTo_from_step 1 _ s ltac:(lra) Hs) as (_ & _ & _ & H).
      eexists _, _; split; [reflexivity|exact H].
  - apply in_linear_ticks in Hin as [(s & Hs & _ & ->)|(s & Hs & ->)];
      [| |congruence].
    + destruct (secondsUpTo_from_step 0.5 _ s ltac:(lra) Hs) as (_ & _ & _ & H).
      eexists _, _; split; [reflexivity|exact H].
    + destruct (secondsUpTo_from_step 1 _ s ltac:(lra) Hs) as (_ & _ & _ & H).
      eexists _, _; split; [reflexivity|exact H].
Qed.

Lemma first_second_pushed step limit :
  0 < step -> step < limit + 0.000001 ->
  exists rest, secondsUpTo step step limit = step :: rest.
Proof.
  intros Hs Hb. unfold secondsUpTo.
  rewrite (turns_step _ _ _ Hs Hb). cbn [forSeconds].
  apply Qgtb_true in Hb. rewrite Hb. eauto.
Qed.

(** X18.  Ticks and dots share one mapping: every tick, in every mode, is
    at a positive number of seconds and at the row of a dot with that gap,
    hence on the axis line once the wrapper is at least 38 pixels tall.
    In piecewise mode the half-second ticks stop at [G1] and the
    whole-second ticks at [G2] (within the tolerance of 1e-6), and the ticks
    at 0.5 s and at 1 s are always drawn. *)
Theorem ticks_follow_the_mapping :
  (forall t, In t allTicks ->
     0 < tickSec t /\
     tickY t
     = yOf height (Vertical.unitOf settings ordered sessionPart (tickSec t))) /\
  (padTop + padBottom <= height ->
   forall t, In t allTicks -> padTop <= tickY t <= height - padBottom) /\
  (Vertical.scaleType settings = piecewise ->
   (forall t, In t allTicks ->
      tickSec t < (if tickMajor t then G2 else G1) + 0.000001) /\
   In (push 0.5 false) allTicks /\ In (push 1 true) allTicks).
Proof.
  assert (H : forall t, In t allTicks ->
     0 < tickSec t /\
     tickY t
     = yOf height (Vertical.unitOf settings ordered sessionPart (tickSec t))).
  { intros t (s & major & -> & Hpos)%in_ticks_positive. done. }
  split; [exact H|]. split.
  - intros Hh t Ht. destruct (H t Ht) as [_ ->].
    pose proof (unitOf_range settings ordered sessionPart (tickSec t)).
    unfold yOf, padTop, padBottom in *. nra.
  - intros Hmode. split; [|split].
    + intros t Ht.
      apply in_piecewise_ticks in Ht as [(s & Hs & ->)|(s & Hs & ->)];
        [| |done]; cbn.
      * by destruct (secondsUpTo_from_step 0.5 _ s ltac:(lra) Hs)
          as (_ & _ & ? & _).
      * by destruct (secondsUpTo_from_step 1 _ s ltac:(lra) Hs)
          as (_ & _ & ? & _).
    + unfold ticks. rewrite Hmode. apply in_or_app. left.
      destruct (first_second_pushed 0.5 G1) as [rest ->]; [lra| |by left].
      pose proof (effG1_lower settings). unfold Vertical.G1. lra.
    + unfold ticks. rewrite Hmode. apply in_or_app. right.
      destruct (first_second_pushed 1 G2) as [rest ->]; [lra| |by left].
      pose proof (effG1_lower settings). pose proof (effG2_lower settings).
      unfold Vertical.G2. lra.
Qed.
End TicksOnAxis.

Lemma ticks_follow_the_mapping_witness :
  In (pushTick defaultSettings [] None 520 1 true)
     (ticks defaultSettings [] None 520).
Proof.
  apply (proj2 (proj2 (ticks_follow_the_mapping defaultSettings [] None 520))
           eq_refl).
Defined.

(** [parseInt] on a few texts: a prefix of digits, a sign, the radix 16
    after [0x], and [NaN] when no digit can be read. *)
Example parseIntJS_examples :
  parseIntJS (list_ascii_of_string " 12abc") = Some 12%Z /\
  parseIntJS (list_ascii_of_string "-7") = Some (-7)%Z /\
  parseIntJS (list_ascii_of_string "0x1F") = Some 31%Z /\
  parseIntJS (list_ascii_of_string "-0x10") = Some (-16)%Z /\
  parseIntJS (list_ascii_of_string "0") = Some 0%Z /\
  parseIntJS (list_ascii_of_string "0x") = None /\
  parseIntJS (list_ascii_of_string "abc") = None /\
  parseIntJS (list_ascii_of_string "+") = None.
Proof. repeat split. Qed.

(* ===================================================================== *)
(** ** The driver order *)
(* ===================================================================== *)

Lemma insertByPosition_perm x l : Permutation (insertByPosition x l) (x :: l).
Proof.
  induction l as [|y r IH]; cbn [insertByPosition]; [done|].
  destruct (x.1 <=? y.1)%Z; [done|].
  rewrite IH. apply perm_swap.
Qed.

Lemma sortByPosition_perm l : Permutation (sortByPosition l) l.
Proof.
  induction l as [|x l IH]; [done|]. cbn.
  rewrite insertByPosition_perm. by constructor.
Qed.

Lemma insertByPosition_sorted x l :
  StronglySorted (fun a b => (a.1 <= b.1)%Z) l ->
  StronglySorted (fun a b => (a.1 <= b.1)%Z) (insertByPosition x l).
Proof.
  induction 1 as [|y r Hr IH Hy]; cbn [insertByPosition].
  { repeat constructor. }
  destruct (x.1 <=? y.1)%Z eqn:E.
  - apply Z.leb_le in E. constructor; [by constructor|].
    constructor; [done|]. eapply Forall_impl; [exact Hy|].
    intros z Hz. cbn in *. lia.
  - apply Z.leb_gt in E. constructor; [done|].
    rewrite insertByPosition_perm. constructor; [lia|done].
Qed.

Lemma sortByPosition_sorted l :
  StronglySorted (fun a b => (a.1 <= b.1)%Z) (sortByPosition l).
Proof.
  induction l as [|x l IH]; [constructor|]. cbn.
  by apply insertByPosition_sorted.
Qed.

Lemma insertByPosition_stable (k : Z) x l :
  List.filter (fun p => bool_decide (p.1 = k)) (insertByPosition x l)
  = List.filter (fun p => bool_decide (p.1 = k)) (x :: l).
Proof.
  induction l as [|y r IH]; [done|]. cbn [insertByPosition].
  destruct (x.1 <=? y.1)%Z eqn:E; [done|]. apply Z.leb_gt in E.
  cbn [List.filter] in *. rewrite IH.
  destruct (bool_decide (y.1 = k)) eqn:Ey; [|done].
  apply bool_decide_eq_true in Ey.
  assert (Ex : bool_decide (x.1 = k) = false).
  { apply bool_decide_eq_false. lia. }
  by rewrite Ex.
Qed.

Lemma sortByPosition_stable (k : Z) l :
  List.filter (fun p => bool_decide (p.1 = k)) (sortByPosition l)
  = List.filter (fun p => bool_decide (p.1 = k)) l.
Proof.
  induction l as [|x l IH]; [done|]. cbn [sortByPosition fold_right].
  rewrite insertByPosition_stable. cbn [List.filter].
  fold (sortByPosition l). by rewrite IH.
Qed.

Lemma keyed_of_mapM kept keyed :
  mapM (fun d => (fun k => (k, d)) <$> positionNumber d) kept = Some keyed ->
  map snd keyed = kept /\ Forall keyedRight keyed.
Proof.
  rewrite mapM_Some. induction 1 as [|d p kept keyed Hp _ [IH1 IH2]].
  { split; [done|constructor]. }
  destruct (positionNumber d) as [k|] eqn:E; [|done]. injection Hp as <-.
  split; [cbn; by rewrite IH1|]. by constructor.
Qed.

Lemma filter_keyed (k : Z) keyed :
  Forall keyedRight keyed ->
  List.filter (atPosition k) (map snd keyed)
  = map snd (List.filter (fun p => bool_decide (p.1 = k)) keyed).
Proof.
  induction 1 as [|p keyed Hp _ IH]; [done|]. cbn [map List.filter].
  rewrite IH. unfold atPosition at 1. unfold keyedRight in Hp. rewrite Hp.
  destruct (bool_decide (p.1 = k)) eqn:E.
  - apply bool_decide_eq_true in E. rewrite bool_decide_eq_true_2; [done|].
    by rewrite E.
  - apply bool_decide_eq_false in E. rewrite bool_decide_eq_false_2; [done|].
    intros [= ?]. done.
Qed.

Lemma sorted_lines keyed :
  Forall keyedRight keyed ->
  StronglySorted (fun a b => (a.1 <= b.1)%Z) keyed ->
  StronglySorted positionLe (map snd keyed).
Proof.
  intros Hk. induction 1 as [|p r Hr IH Hp]; [constructor|].
  apply Forall_cons in Hk as [Hkp Hkr]. cbn [map].
  constructor; [by apply IH|].
  rewrite Forall_forall in Hp, Hkr. apply Forall_forall.
  intros d Hd. apply list_elem_of_In, in_map_iff in Hd as (q & <- & Hq).
  apply list_elem_of_In in Hq.
  pose proof (Hkr q Hq) as Hkq. unfold keyedRight in Hkp, Hkq.
  unfold positionLe. rewrite Hkp, Hkq. by apply Hp.
Qed.

(** X19.  [getDriverOrder] returns no line for an absent snapshot.  For a
    snapshot whose positions are numbers it returns exactly the lines that
    have a position (none dropped, none repeated), in ascending order of the
    number [parseInt] reads in the position, lines with the same number
    keeping the order of the snapshot; and it is defined in the model
    exactly when every position is a number. *)
Theorem getDriverOrder_sorted (values : list TimingLine) :
  getDriverOrder None = Some [] /\
  (forall result, getDriverOrder (Some values) = Some result ->
     Permutation result (List.filter hasPosition values) /\
     StronglySorted positionLe result /\
     (forall k, List.filter (atPosition k) result
                = List.filter (atPosition k) (List.filter hasPosition values))) /\
  (is_Some (getDriverOrder (Some values)) <->
   Forall (fun d => is_Some (positionNumber d))
          (List.filter hasPosition values)).
Proof.
  split; [done|]. unfold getDriverOrder. cbv zeta. split.
  - intros result.
    destruct (mapM _ (List.filter hasPosition values)) as [keyed|] eqn:E;
      [|done].
    cbn. intros [= <-].
    destruct (keyed_of_mapM _ _ E) as [Hsnd Hkeyed].
    assert (Hsk : Forall keyedRight (sortByPosition keyed)).
    { rewrite Forall_forall in *. intros p Hp. apply Hkeyed.
      by rewrite <- (sortByPosition_perm keyed). }
    split; [|split].
    + rewrite <- Hsnd. apply Permutation_map, sortByPosition_perm.
    + apply sorted_lines; [done|apply sortByPosition_sorted].
    + intros k. rewrite <- Hsnd, !filter_keyed by done.
      by rewrite sortByPosition_stable.
  - split.
    + destruct (mapM _ (List.filter hasPosition values)) as [keyed|] eqn:E;
        [|by intros [? [=]]].
      intros _. apply mapM_Some in E.
      induction E as [|d p kept keyed Hp _ IH]; constructor; [|done].
      destruct (positionNumber d); [by eexists|done].
    + intros Hall.
      assert (Hm : is_Some (mapM (fun d => (fun k => (k, d)) <$> positionNumber d)
                            (List.filter hasPosition values))).
      { apply mapM_is_Some. eapply Forall_impl; [exact Hall|].
        intros d [k Hk]. unfold compose. rewrite Hk. by eexists. }
      destruct Hm as [keyed ->]. by eexists.
Qed.

Lemma digitsPrefix_digits ds : forall a,
  allDigits ds ->
  digitsPrefix decValue 10 ds (Some a)
  = Some (fold_left (fun acc c => 10 * acc + digitValue c)%Z ds a).
Proof.
  induction ds as [|c ds IH]; intros a Hd; [done|].
  apply Forall_cons in Hd as [Hc Hd]. cbn [digitsPrefix fold_left].
  unfold decValue at 1. rewrite Hc. cbn [default]. by rewrite IH.
Qed.

Lemma digit_not_space c : isDigit c = true -> isWhiteSpace c = false.
Proof. destruct c as [[] [] [] [] [] [] [] []]; done. Qed.

Lemma digit_not_sign c :
  isDigit c = true -> Ascii.eqb c "-" = false /\ Ascii.eqb c "+" = false.
Proof. destruct c as [[] [] [] [] [] [] [] []]; done. Qed.

Lemma digit_not_x c :
  isDigit c = true -> (Ascii.eqb c "x" || Ascii.eqb c "X")%bool = false.
Proof. destruct c as [[] [] [] [] [] [] [] []]; done. Qed.

(** X20.  On a plain decimal numeral, with or without white space before
    it, [parseInt] reads the decimal value, the same number
    [parseSeconds] reads in a group of digits. *)
Theorem parseIntJS_numeral ws ds :
  allWhiteSpace ws -> allDigits ds -> ds <> [] ->
  parseIntJS (ws ++ ds) = Some (parseInt ds) /\ (0 <= parseInt ds)%Z.
Proof.
  intros Hws Hd Hne. split; [|by apply parseInt_nonneg].
  unfold parseIntJS. rewrite trimStart_app_ws by done.
  destruct ds as [|c ds]; [done|].
  pose proof Hd as Hd'. apply Forall_cons in Hd' as [Hc Hds].
  cbn [trimStart]. rewrite (digit_not_space c Hc).
  destruct (digit_not_sign c Hc) as [-> ->].
  assert (Hmag : match c :: ds with
                 | z :: x :: r =>
                     if (Ascii.eqb z "0" && (Ascii.eqb x "x" || Ascii.eqb x "X"))%bool
                     then digitsPrefix hexValue 16 r None
                     else digitsPrefix decValue 10 (c :: ds) None
                 | _ => digitsPrefix decValue 10 (c :: ds) None
                 end = Some (parseInt (c :: ds))).
  { assert (Hdec : digitsPrefix decValue 10 (c :: ds) None
                   = Some (parseInt (c :: ds))).
    { cbn [digitsPrefix]. unfold decValue at 1. rewrite Hc. cbn [default].
      rewrite digitsPrefix_digits by done. done. }
    destruct ds as [|x r]; [done|].
    apply Forall_cons in Hds as [Hx _]. rewrite (digit_not_x x Hx).
    by rewrite andb_false_r. }
  rewrite Hmag. cbn. f_equal. lia.
Qed.

Lemma parseIntJS_numeral_witness :
  parseIntJS (list_ascii_of_string " 12") = Some 12%Z.
Proof.
  apply (parseIntJS_numeral [" "%char] ["1"; "2"]%char);
    [by repeat constructor|by repeat constructor|done].
Defined.

Lemma getDriverOrder_sorted_witness :
  exists result,
    getDriverOrder (Some sampleLines) = Some result /\
    map (fun d => racingNumber (line d)) result = ["1"; "44"]%string /\
    StronglySorted positionLe result.
Proof.
  eexists. split; [reflexivity|]. split; [reflexivity|].
  apply (proj1 (proj2 (getDriverOrder_sorted sampleLines)) _ eq_refl).
Defined.

(* ===================================================================== *)
(** ** The sector lights *)
(* ===================================================================== *)

Lemma lastUpdatedFrom_spec bound : forall sectors i last,
  let r := lastUpdatedFrom bound i sectors last in
  (r = last /\
   forall j, (j < bound)%nat -> ~ hasValueAt sectors j) \/
  (exists j, (j < bound)%nat /\ r = (i + Z.of_nat j)%Z /\
             hasValueAt sectors j /\
             forall j', (j < j' < bound)%nat -> ~ hasValueAt sectors j').
Proof.
  induction bound as [|bound IH]; intros sectors i last; cbv zeta.
  { left. split; [done|]. intros j Hj. lia. }
  destruct sectors as [|s rest]; cbn [lastUpdatedFrom].
  { left. split; [done|]. intros j _ (s & Hs & _). done. }
  specialize (IH rest (i + 1)%Z
                (if truthyText (sector_value s) then i else last)).
  cbv zeta in IH.
  destruct IH as [[Er Hnone]|(j & Hj & Er & Hv & Hlater)].
  - destruct (truthyText (sector_value s)) eqn:Es.
    + right. exists 0%nat. split; [lia|]. split; [lia|]. split.
      * exists s. done.
      * intros [|j'] Hj'; [lia|]. intros (s' & Hs' & Ht).
        apply (Hnone j'); [lia|]. exists s'. done.
    + left. split; [done|]. intros [|j] Hj (s' & Hs' & Ht).
      * cbn in Hs'. injection Hs' as <-. congruence.
      * apply (Hnone j); [lia|]. exists s'. done.
  - right. exists (S j). split; [lia|]. split; [lia|]. split.
    + destruct Hv as (s' & Hs' & Ht). exists s'. done.
    + intros [|j'] Hj'; [lia|]. intros (s' & Hs' & Ht).
      apply (Hlater j'); [lia|]. exists s'. done.
Qed.

(** X21.  The red outline marks the last of the first three sectors that
    holds a value, and no rectangle when none of them does: the index is
    [-1], or an index below 3 whose sector has a value while no later
    sector among the first three has one. *)
Theorem lastUpdatedSector_is_last (sectors : list Sector) :
  (lastUpdatedSector sectors = (-1)%Z /\
   forall j, (j < 3)%nat -> ~ hasValueAt sectors j) \/
  (exists j, (j < 3)%nat /\ lastUpdatedSector sectors = Z.of_nat j /\
             hasValueAt sectors j /\
             forall j', (j < j' < 3)%nat -> ~ hasValueAt sectors j').
Proof.
  unfold lastUpdatedSector.
  destruct (lastUpdatedFrom_spec 3 sectors 0 (-1)) as [H|(j & Hj & E & H)].
  - by left.
  - right. exists j. rewrite E. split; [done|]. split; [lia|done].
Qed.

(** With the first two sectors done the outline is on the second. *)
Example lastUpdatedSector_sample : lastUpdatedSector sampleSectors = 1%Z.
Proof. reflexivity. Qed.

(* ===================================================================== *)
(** ** The connectors between adjacent dots *)
(* ===================================================================== *)

Section ConnectorFacts.
Variable settings : Settings.
Variable ordered : list TimingDataDriver.
Variable sessionPart : option Z.
Variable height : Q.
Variable lines : gmap string TimingDataDriver.

Abbreviation dots := (Vertical.dots settings ordered sessionPart).

Lemma connectorOf_facts prev cur c :
  connectorOf height lines prev cur = Some c ->
  18 <= connBottom c - connTop c /\
  1 <= connInterval c /\
  connBottom c - connTop c
    <= Qabs (yOf height (Vertical.y cur) - yOf height (Vertical.y prev)) /\
  match ((lines !! connRacingNumber c) ≫= intervalToPositionAhead)
          ≫= interval_value with
  | Some text =>
      if truthyText (Some text) then connLabel c = FeedText text
      else connLabel c = ComputedSeconds (connInterval c)
  | None => connLabel c = ComputedSeconds (connInterval c)
  end.
Proof.
  unfold connectorOf. cbv zeta.
  set (y1 := yOf height (Vertical.y prev)).
  set (y2 := yOf height (Vertical.y cur)).
  destruct (Qgtb MIN_PIXELS (Qmax y1 y2 - Qmin y1 y2)) eqn:Eh; [done|].
  set (valStr := ((lines !! Vertical.dotRacingNumber cur)
                    ≫= intervalToPositionAhead) ≫= interval_value).
  set (intervalSec := match (if truthyText valStr then parseSeconds valStr else None) with
                      | Some p => Qabs p
                      | None => Qmax 0 (Vertical.gap cur - Vertical.gap prev)
                      end).
  cbn [Number_isFinite andb].
  destruct (Qle_bool 1 intervalSec) eqn:Ei; [|done]. cbn [negb].
  intros [= <-].
  cbn [connBottom connTop connInterval connLabel connRacingNumber].
  fold valStr.
  unfold Qgtb in Eh. apply negb_false_iff, Qle_bool_iff in Eh.
  apply Qle_bool_iff in Ei. unfold MIN_PIXELS in Eh.
  split; [done|]. split; [done|]. split.
  - apply Qabs_case; intros; qminmax; lra.
  - destruct valStr as [text|]; [|done].
    rewrite andb_true_r. by destruct (truthyText (Some text)).
Qed.
Lemma in_connectorLoop c rest : forall prev,
  In c (connectorLoop height lines prev rest) ->
  exists p q, In p (prev :: rest) /\ In q rest /\
              connectorOf height lines p q = Some c.
Proof.
  induction rest as [|cur rest IH]; intros prev; [done|].
  cbn [connectorLoop].
  assert (Hrec : In c (connectorLoop height lines cur rest) ->
            exists p q, In p (prev :: cur :: rest) /\ In q (cur :: rest) /\
                        connectorOf height lines p q = Some c).
  { intros (p & q & Hp & Hq & E)%IH. exists p, q.
    split; [by right|]. split; [by right|done]. }
  destruct (connectorOf height lines prev cur) as [c'|] eqn:E; [|done].
  intros [<-|H]; [|by apply Hrec].
  exists prev, cur. split; [by left|]. split; [by left|done].
Qed.

Lemma connectorLoop_length rest : forall prev,
  (length (connectorLoop height lines prev rest) <= length rest)%nat.
Proof.
  induction rest as [|cur rest IH]; intros prev; [done|].
  cbn [connectorLoop]. specialize (IH cur).
  destruct (connectorOf height lines prev cur); cbn [length]; lia.
Qed.

Lemma in_connectors show c :
  In c (connectors height lines show dots) ->
  exists p q, In p dots /\ In q dots /\
              connectorOf height lines p q = Some c.
Proof.
  unfold connectors. destruct show; [|done].
  destruct dots as [|first rest] eqn:E; [done|].
  intros (p & q & Hp & Hq & Hc)%in_connectorLoop.
  exists p, q. split; [done|]. split; [by right|done].
Qed.

End ConnectorFacts.


